(** * lnd: the protofsm executor and the ChannelAnnouncement2 codec

    A shallow embedding of two files of lnd:

    - [protofsm]: the generic protocol state machine executor
      ([executeDaemonEvent], [applyEvents], [driveMachine], [CurrentState]);
    - [lnwire]: the TLV part of the [ChannelAnnouncement2] message
      ([DecodeTLVRecords], [DataToSign]).

    Goroutines are modelled by the data they are started with and by a
    function that runs one of them against the sequence of outcomes of its
    [select] statement; the driver goroutine is run against the sequence of
    outcomes of its own [select].  Every effect the executor has on its
    collaborators is appended to a trace kept next to the executor's
    fields. *)

From Stdlib Require Import ZArith Lia.
From Stdlib Require Import Strings.Byte.
From stdpp Require Import base option list gmap strings.

#[global] Instance byte_eq_dec : EqDecision byte := Byte.byte_eq_dec.

(** Opaque payloads of the daemon events.  The executor only carries them
    to the adapters, so each is kept in its serialised form. *)
Definition PublicKey := list byte.   (* btcec.PublicKey *)
Definition Message := list byte.     (* lnwire.Message *)
Definition MsgTx := list byte.       (* wire.MsgTx *)
Definition Hash := list byte.        (* chainhash.Hash, [32]byte *)
Definition OutPointT := (Hash * Z)%type.  (* wire.OutPoint: hash and index *)

(** The zero value of an n-byte array. *)
Definition zeroBytes (n : nat) : list byte := replicate n x00.

Module protofsm.

(** The errors the executor produces.  [ErrWrap] is [fmt.Errorf("...: %w")]
    around the error of a collaborator. *)
Inductive error : Type :=
  | ErrCollaborator (msg : string)
  | ErrWrap (prefix : string) (cause : error)
  | ErrUnknownDaemonEvent
  | ErrShuttingDown
  | ErrTimeout.

(** [pollInterval = time.Millisecond * 100] and [time.Second], in
    nanoseconds as [time.Duration] counts them. *)
Definition time_Millisecond : Z := 1000000.
Definition time_Second : Z := 1000000000.
Definition pollInterval : Z := time_Millisecond * 100.

(** Handles returned by the chain notifier: each names the channel the
    waiter blocks on. *)
Definition SpendEvent := nat.
Definition ConfirmationEvent := nat.

(** A [SendPredicate] is a Go closure [func() bool]; what the executor can
    observe of it is the answer to its k-th call. *)
Definition SendPredicate := nat -> bool.

(** Modelled from the spec: [fn.Queue], the internal FIFO of the transition
    engine ("enqueue the emitted internal event at the tail", "dequeue the
    next event; if empty, stop").  Its code is in lnd's [fn] package. *)
Module Queue.
Definition t (A : Type) := list A.
Definition NewQueue {A} (startingItems : list A) : t A := startingItems.
Definition Enqueue {A} (value : A) (q : t A) : t A := q ++ [value].
Definition Dequeue {A} (q : t A) : option A * t A :=
  match q with
  | [] => (None, [])
  | x :: rest => (Some x, rest)
  end.
(** Dequeue until the queue is empty. *)
Fixpoint drain {A} (n : nat) (q : t A) : list A :=
  match n with
  | O => []
  | S n' => match Dequeue q with
            | (Some x, q') => x :: drain n' q'
            | (None, _) => []
            end
  end.
End Queue.

(** [fn.Option]: [IsSome], and [MapOptionZ], which gives the zero value of
    the result type for an absent option.  Where the function handed to
    [MapOptionZ] is a closure that returns an error and updates variables
    it captures, its result here is the error together with the captured
    variables, and the zero value is the nil error with the variables as
    they were. *)
Definition IsSome {A} (o : option A) : bool :=
  match o with Some _ => true | None => false end.

Definition MapOptionZ {A B} (zero : B) (o : option A) (f : A -> B) : B :=
  match o with Some a => f a | None => zero end.

(** The outcome of a [select] between one channel and [s.quit]. *)
Inductive Select : Type :=
  | Fired      (* the channel operation went through *)
  | Quit.      (* s.quit was closed *)

(** Modelled from the spec: [fn.SendOrQuit], a select between a send on a
    channel and [quit] ("blocks until the event is accepted by the driver or
    shutdown occurs"): true when the send went through, false when shutdown
    won the select. *)
Definition SendOrQuit (o : Select) : bool :=
  match o with
  | Fired => true
  | Quit => false
  end.

Section Executor.

Context {Event State Env D : Type}.

(** ** Daemon events *)

(** Modelled from the spec: the four daemon event structs (section 3, "Daemon
    event"); their declarations are in the package's daemon_events.go.  The
    pkScript and height hint fields of the two registration events carry a
    prefix, as one Rocq module cannot declare a field name twice. *)
Record SendMsgEvent := {
  TargetPeer : PublicKey;
  Msgs : list Message;
  SendWhen : option SendPredicate;
  PostSendEvent : option Event }.

Record BroadcastTxn := {
  Tx : MsgTx;
  Label : string }.

Record RegisterSpend := {
  OutPoint : OutPointT;
  SpendPkScript : list byte;
  SpendHeightHint : Z;
  PostSpendEvent : option Event }.

Record RegisterConf := {
  Txid : Hash;
  ConfPkScript : list byte;
  ConfHeightHint : Z;
  NumConfs : option Z;
  PostConfEvent : option Event }.

(** [DaemonEvent] is a Go interface: besides the four structs the type
    switch of the dispatcher knows, a value of any other type that
    implements it is [DOther], tagged with its type name. *)
Inductive DaemonEvent : Type :=
  | DSendMsgEvent (e : SendMsgEvent)
  | DBroadcastTxn (e : BroadcastTxn)
  | DRegisterSpend (e : RegisterSpend)
  | DRegisterConf (e : RegisterConf)
  | DOther (typeName : string).

Definition DaemonEventSet := list DaemonEvent.

Record EmittedEvent := {
  InternalEvent : option Event;
  ExternalEvents : option DaemonEventSet }.

Record StateTransition := {
  NextState : State;
  NewEvents : option EmittedEvent }.

(** ** The collaborator interfaces *)

(** [State]: the transition function may use (and change) the environment
    it is handed. *)
Class StateOps := {
  ProcessEvent : State -> Event -> Env -> (error + StateTransition) * Env;
  IsTerminal : State -> bool }.

Class Environment := {
  CleanUp : Env -> option error * Env }.

(** [DaemonAdapters]: each call may change the daemon, [D]. *)
Class DaemonAdapters := {
  SendMessages : PublicKey -> list Message -> D -> option error * D;
  BroadcastTransaction : MsgTx -> string -> D -> option error * D;
  RegisterConfirmationsNtfn :
    Hash -> list byte -> Z -> Z -> D -> (error + ConfirmationEvent) * D;
  RegisterSpendNtfn :
    OutPointT -> list byte -> Z -> D -> (error + SpendEvent) * D }.

Context {ops : StateOps} {environment : Environment} {adapters : DaemonAdapters}.

(** ** The executor *)

(** The goroutines the executor starts under its wait group. *)
Inductive Worker : Type :=
  | WPostSend (event : Event)
      (* go func() { s.SendEvent(event) } *)
  | WSendWhen (daemonEvent : SendMsgEvent)
      (* polls SendWhen every pollInterval *)
  | WSpend (spendEvent : SpendEvent) (postSpend : option Event)
  | WConf (confEvent : ConfirmationEvent) (postConf : option Event).

(** What the executor does to the outside, in the order it does it. *)
Inductive Action : Type :=
  | ADispatch (event : DaemonEvent)          (* executeDaemonEvent entered *)
  | ASendMessages (peer : PublicKey) (msgs : list Message)
  | ABroadcastTransaction (tx : MsgTx) (label : string)
  | ARegisterSpendNtfn (op : OutPointT) (pkScript : list byte) (heightHint : Z)
  | ARegisterConfirmationsNtfn
      (txid : Hash) (pkScript : list byte) (numConfs heightHint : Z)
  | AEnqueue (inEvent : Event)               (* eventQueue.Enqueue *)
  | ANotifySubscribers (s : State)
  | ACleanUp
  | ALogError (msg : string) (err : error)   (* log.Errorf *)
  | AReply (s : State).                      (* answer to a state query *)

(** Modelled from the spec: [fn.EventDistributor], the subscription hub
    (section 4.5): every subscriber has a buffer of capacity 10, a
    publication is appended to each buffer that has room and dropped for a
    subscriber whose buffer is full.  [received] is what the subscriber has
    read off its buffer so far. *)
Record Subscriber := {
  received : list State;
  buffered : list State }.

Definition subscriberBufferSize : nat := 10.

Definition deliver (s : State) (sub : Subscriber) : Subscriber :=
  if decide (length (buffered sub) < subscriberBufferSize)
  then {| received := received sub; buffered := buffered sub ++ [s] |}
  else sub.

(** The subscriber reads one notification, if one is buffered. *)
Definition readOne (sub : Subscriber) : Subscriber :=
  match buffered sub with
  | [] => sub
  | s :: rest => {| received := received sub ++ [s]; buffered := rest |}
  end.

Definition NewEventReceiver : Subscriber := {| received := []; buffered := [] |}.

(** The fields of [StateMachine] the model needs, the goroutines started so
    far and the trace. *)
Record StateMachine := {
  currentState : State;
  env : Env;
  daemon : D;
  newStateEvents : list Subscriber;
  spawned : list Worker;
  trace : list Action }.

Definition NewStateMachine (adapters : D) (initialState : State) (e : Env)
  : StateMachine :=
  {| currentState := initialState; env := e; daemon := adapters;
     newStateEvents := []; spawned := []; trace := [] |}.

Definition RegisterStateEvents (s : StateMachine) : StateMachine :=
  {| currentState := currentState s; env := env s; daemon := daemon s;
     newStateEvents := newStateEvents s ++ [NewEventReceiver];
     spawned := spawned s; trace := trace s |}.

Definition record (a : Action) (s : StateMachine) : StateMachine :=
  {| currentState := currentState s; env := env s; daemon := daemon s;
     newStateEvents := newStateEvents s;
     spawned := spawned s; trace := trace s ++ [a] |}.

Definition go (w : Worker) (s : StateMachine) : StateMachine :=
  {| currentState := currentState s; env := env s; daemon := daemon s;
     newStateEvents := newStateEvents s;
     spawned := spawned s ++ [w]; trace := trace s |}.

Definition withDaemon (d : D) (s : StateMachine) : StateMachine :=
  {| currentState := currentState s; env := env s; daemon := d;
     newStateEvents := newStateEvents s;
     spawned := spawned s; trace := trace s |}.

Definition withEnv (e : Env) (s : StateMachine) : StateMachine :=
  {| currentState := currentState s; env := e; daemon := daemon s;
     newStateEvents := newStateEvents s;
     spawned := spawned s; trace := trace s |}.

Definition NotifySubscribers (st : State) (s : StateMachine) : StateMachine :=
  record (ANotifySubscribers st)
    {| currentState := currentState s; env := env s; daemon := daemon s;
       newStateEvents := deliver st <$> newStateEvents s;
       spawned := spawned s; trace := trace s |}.

(** *** executeDaemonEvent *)

(** The closure [sendAndCleanUp] of the SendMsgEvent case. *)
Definition sendAndCleanUp (daemonEvent : SendMsgEvent) (s : StateMachine)
  : option error * StateMachine :=
  let '(err, d) :=
    SendMessages (TargetPeer daemonEvent) (Msgs daemonEvent) (daemon s) in
  let s := record (ASendMessages (TargetPeer daemonEvent) (Msgs daemonEvent))
             (withDaemon d s) in
  match err with
  | Some err => (Some (ErrWrap "unable to send msgs" err), s)
  | None =>
      (None,
       match PostSendEvent daemonEvent with
       | Some event => go (WPostSend event) s
       | None => s
       end)
  end.

(** A case of the type switch either returns from the function or runs to
    its end, after which control continues behind the switch. *)
Inductive Flow : Type :=
  | Return (err : option error) (s : StateMachine)
  | EndOfSwitch (s : StateMachine).

Definition daemonEventSwitch (event : DaemonEvent) (s : StateMachine) : Flow :=
  match event with
  | DSendMsgEvent daemonEvent =>
      if negb (IsSome (SendWhen daemonEvent)) then
        let '(err, s) := sendAndCleanUp daemonEvent s in Return err s
      else
        Return None (go (WSendWhen daemonEvent) s)
  | DBroadcastTxn daemonEvent =>
      let '(err, d) :=
        BroadcastTransaction (Tx daemonEvent) (Label daemonEvent) (daemon s) in
      let s := record (ABroadcastTransaction (Tx daemonEvent) (Label daemonEvent))
                 (withDaemon d s) in
      match err with
      | Some err => Return (Some (ErrWrap "unable to broadcast txn" err)) s
      | None => Return None s
      end
  | DRegisterSpend daemonEvent =>
      let '(res, d) :=
        RegisterSpendNtfn (OutPoint daemonEvent) (SpendPkScript daemonEvent)
          (SpendHeightHint daemonEvent) (daemon s) in
      let s := record (ARegisterSpendNtfn (OutPoint daemonEvent)
                         (SpendPkScript daemonEvent) (SpendHeightHint daemonEvent))
                 (withDaemon d s) in
      match res with
      | inl err => Return (Some (ErrWrap "unable to register spend" err)) s
      | inr spendEvent =>
          Return None (go (WSpend spendEvent (PostSpendEvent daemonEvent)) s)
      end
  | DRegisterConf daemonEvent =>
      let numConfs := default 1%Z (NumConfs daemonEvent) in
      let '(res, d) :=
        RegisterConfirmationsNtfn (Txid daemonEvent) (ConfPkScript daemonEvent)
          numConfs (ConfHeightHint daemonEvent) (daemon s) in
      let s := record (ARegisterConfirmationsNtfn (Txid daemonEvent)
                         (ConfPkScript daemonEvent) numConfs
                         (ConfHeightHint daemonEvent))
                 (withDaemon d s) in
      match res with
      | inl err => Return (Some (ErrWrap "unable to register conf" err)) s
      | inr confEvent =>
          (* the goroutine is started; the case has no return statement *)
          EndOfSwitch (go (WConf confEvent (PostConfEvent daemonEvent)) s)
      end
  | DOther _ => EndOfSwitch s
  end.

Definition executeDaemonEvent (event : DaemonEvent) (s : StateMachine)
  : option error * StateMachine :=
  match daemonEventSwitch event (record (ADispatch event) s) with
  | Return err s => (err, s)
  | EndOfSwitch s => (Some ErrUnknownDaemonEvent, s)
  end.

(** *** The goroutines *)

(** [SendEvent]: the event reaches the intake channel unless shutdown wins
    the select. *)
Definition SendEvent (event : Event) (o : Select) : list Event :=
  match o with
  | Fired => [event]
  | Quit => []
  end.

(** The goroutine of a SendMsgEvent with a predicate, run against the
    outcomes of its select: [Fired] is a tick of the ticker.  [k] counts the
    calls of the predicate made so far.  The value of [sendAndCleanUp()] is
    dropped by the statement that calls it. *)
Fixpoint pollSendWhen (daemonEvent : SendMsgEvent) (k : nat)
    (sel : list Select) (s : StateMachine) : StateMachine :=
  match sel with
  | [] => s
  | Quit :: _ => s
  | Fired :: sel =>
      let canSend :=
        MapOptionZ false (SendWhen daemonEvent) (fun pred => pred k) in
      if canSend then
        let '(_, s) := sendAndCleanUp daemonEvent s in s
      else pollSendWhen daemonEvent (S k) sel s
  end.

(** A waiter on a spend or confirmation channel: on the notification it
    hands the follow-up event, if there is one, to [SendEvent]. *)
Definition awaitAndSend (post : option Event) (sel : list Select)
  : list Event :=
  match sel with
  | Fired :: sel =>
      match post with
      | Some e => SendEvent e (default Quit (head sel))
      | None => []
      end
  | _ => []
  end.

(** One goroutine run to its end: the events it put on the intake channel
    and the executor it leaves. *)
Definition runWorker (w : Worker) (sel : list Select) (s : StateMachine)
  : list Event * StateMachine :=
  match w with
  | WPostSend event => (SendEvent event (default Quit (head sel)), s)
  | WSendWhen daemonEvent => ([], pollSendWhen daemonEvent 0 sel s)
  | WSpend _ postSpend => (awaitAndSend postSpend sel, s)
  | WConf _ postConf => (awaitAndSend postConf sel, s)
  end.

(** *** applyEvents *)

(** The loop over the external event set: the first error ends it. *)
Fixpoint dispatchAll (dEvents : DaemonEventSet) (s : StateMachine)
  : option error * StateMachine :=
  match dEvents with
  | [] => (None, s)
  | dEvent :: dEvents =>
      match executeDaemonEvent dEvent s with
      | (Some err, s) => (Some err, s)
      | (None, s) => dispatchAll dEvents s
      end
  end.

(** The closure over the emitted events: it returns its error and leaves
    the captured queue as it has updated it. *)
Definition processNewEvents (events : EmittedEvent)
    (eventQueue : Queue.t Event) (s : StateMachine)
  : option error * (Queue.t Event * StateMachine) :=
  let '(err, s) :=
    MapOptionZ (None, s) (ExternalEvents events)
      (fun dEvents => dispatchAll dEvents s) in
  match err with
  | Some err => (Some err, (eventQueue, s))
  | None =>
      (None,
       match InternalEvent events with
       | Some inEvent =>
           (Queue.Enqueue inEvent eventQueue, record (AEnqueue inEvent) s)
       | None => (eventQueue, s)
       end)
  end.

(** The body of the loop of [applyEvents]: the closure handed to
    [MapOptionZ] for the dequeued event.  It captures [eventQueue] and
    [currentState] and returns its error; the captured variables are
    returned as the closure leaves them. *)
Definition applyStep (event : Event) (eventQueue : Queue.t Event)
    (currentState : State) (s : StateMachine)
  : option error * (Queue.t Event * State * StateMachine) :=
  let '(res, e) := ProcessEvent currentState event (env s) in
  let s := withEnv e s in
  match res with
  | inl err => (Some err, (eventQueue, currentState, s))
  | inr transition =>
      let '(err, (eventQueue, s)) :=
        MapOptionZ (None, (eventQueue, s)) (NewEvents transition)
          (fun events => processNewEvents events eventQueue s) in
      match err with
      | Some err => (Some err, (eventQueue, currentState, s))
      | None =>
          let currentState := NextState transition in
          (None, (eventQueue, currentState, NotifySubscribers currentState s))
      end
  end.

(** What a run of the engine gives: it returns, or it is still running when
    the fuel is spent. *)
Inductive EngineResult : Type :=
  | Returned (currentState : State) (err : option error) (s : StateMachine)
  | Running (s : StateMachine).

Fixpoint applyLoop (fuel : nat) (eventQueue : Queue.t Event)
    (currentState : State) (s : StateMachine) : EngineResult :=
  match fuel with
  | O => Running s
  | S fuel =>
      match Queue.Dequeue eventQueue with
      | (None, _) => Returned currentState None s
      | (Some event, eventQueue) =>
          let '(err, (eventQueue, currentState, s)) :=
            applyStep event eventQueue currentState s in
          match err with
          | Some err => Returned currentState (Some err) s
          | None => applyLoop fuel eventQueue currentState s
          end
      end
  end.

Definition applyEvents (fuel : nat) (newEvent : Event) (s : StateMachine)
  : EngineResult :=
  let currentState := currentState s in
  let eventQueue := Queue.NewQueue [newEvent] in
  applyLoop fuel eventQueue currentState s.

(** *** driveMachine *)

(** What happens next around the driver: one of the three cases of its
    select, or a subscriber taking a notification off its buffer. *)
Inductive Input : Type :=
  | RecvEvent (newEvent : Event)    (* case newEvent := <-s.events *)
  | RecvQuery (reply : Select)      (* case stateQuery := <-s.stateQuery,
                                       with the outcome of the select that
                                       sends the reply *)
  | RecvQuit                        (* case <-s.quit *)
  | SubscriberReads (i : nat).

Inductive DriverStatus : Type :=
  | Exited        (* driveMachine has returned *)
  | Waiting       (* blocked in its select *)
  | InEngine.     (* inside applyEvents when the fuel was spent *)

Definition subscriberReads (i : nat) (s : StateMachine) : StateMachine :=
  {| currentState := currentState s; env := env s; daemon := daemon s;
     newStateEvents := alter readOne i (newStateEvents s);
     spawned := spawned s; trace := trace s |}.

Definition cleanUpEnv (s : StateMachine) : StateMachine :=
  let '(err, e) := CleanUp (env s) in
  let s := record ACleanUp (withEnv e s) in
  match err with
  | Some err => record (ALogError "unable to clean up env" err) s
  | None => s
  end.

Fixpoint driveLoop (fuel : nat) (inputs : list Input) (currentState : State)
    (s : StateMachine) : DriverStatus * State * StateMachine :=
  match inputs with
  | [] => (Waiting, currentState, s)
  | RecvEvent newEvent :: inputs =>
      match applyEvents fuel newEvent s with
      | Running s => (InEngine, currentState, s)
      | Returned newState (Some err) s =>
          driveLoop fuel inputs currentState
            (record (ALogError "unable to apply event" err) s)
      | Returned newState None s =>
          let currentState := newState in
          let s := if IsTerminal currentState then cleanUpEnv s else s in
          driveLoop fuel inputs currentState s
      end
  | RecvQuery reply :: inputs =>
      if negb (SendOrQuit reply) then (Exited, currentState, s)
      else driveLoop fuel inputs currentState (record (AReply currentState) s)
  | RecvQuit :: _ => (Exited, currentState, s)
  | SubscriberReads i :: inputs =>
      driveLoop fuel inputs currentState (subscriberReads i s)
  end.

Definition driveMachine (fuel : nat) (inputs : list Input) (s : StateMachine)
  : DriverStatus * State * StateMachine :=
  let currentState := currentState s in
  let s := NotifySubscribers currentState s in
  driveLoop fuel inputs currentState s.

(** *** CurrentState *)

(** Modelled from the spec: [fn.RecvOrTimeout] ("waits for a reply with a
    1-second deadline", "timeout if the reply did not arrive in time").
    [c] says whether a value is ever sent on the channel and, if so, how
    many nanoseconds after the wait began; when it arrives at the very
    instant the timer fires, the select may take either case, and [tie]
    says whether it takes the receive. *)
Definition RecvOrTimeout (c : option (Z * State)) (timeout : Z) (tie : bool)
  : option State * option error :=
  match c with
  | Some (t, m) =>
      if (t <? timeout)%Z || ((t =? timeout)%Z && tie)
      then (Some m, None)
      else (None, Some ErrTimeout)
  | None => (None, Some ErrTimeout)
  end.

(** [CurrentState], run against what becomes of handing the query to the
    driver and the arrival of the reply on [query.CurrentState].  The
    channel [s.stateQuery] has no buffer: the send of the query goes
    through when the driver takes it in its select, shutdown ends it, and
    while neither happens (the driver is not started, or is inside
    [applyEvents]) the caller stays blocked in [SendOrQuit]; [handOver] is
    [None] when neither ever happens, and the result is [None] when
    [CurrentState] does not return. *)
Definition CurrentState (handOver : option Select)
    (reply : option (Z * State)) (tie : bool)
  : option (option State * option error) :=
  match handOver with
  | None => None
  | Some o =>
      Some (if negb (SendOrQuit o) then (None, Some ErrShuttingDown)
            else RecvOrTimeout reply time_Second tie)
  end.

(** ** Reading the trace and the loop *)

Definition dispatchOf (a : Action) : option DaemonEvent :=
  match a with ADispatch d => Some d | _ => None end.

Definition notificationOf (a : Action) : option State :=
  match a with ANotifySubscribers st => Some st | _ => None end.

Definition replyOf (a : Action) : option State :=
  match a with AReply st => Some st | _ => None end.

Definition cleanUpOf (a : Action) : option unit :=
  match a with ACleanUp => Some () | _ => None end.

(** The daemon events dispatched, the states published, the states
    answered to queries and the number of calls of [CleanUp] in a trace. *)
Definition dispatched (t : list Action) : list DaemonEvent := omap dispatchOf t.
Definition notifications (t : list Action) : list State := omap notificationOf t.
Definition replies (t : list Action) : list State := omap replyOf t.
Definition cleanUps (t : list Action) : nat := length (omap cleanUpOf t).

(** An action of the engine itself on its queue or on the hub, as opposed
    to a call of an adapter. *)
Definition enqueuesOrNotifies (a : Action) : bool :=
  match a with
  | AEnqueue _ | ANotifySubscribers _ => true
  | _ => false
  end.

(** An action of the dispatcher: its entry, or a call of an adapter. *)
Definition dispatcherAction (a : Action) : bool :=
  match a with
  | ADispatch _ | ASendMessages _ _ | ABroadcastTransaction _ _
  | ARegisterSpendNtfn _ _ _ | ARegisterConfirmationsNtfn _ _ _ _ => true
  | _ => false
  end.

(** [s'] comes from [s] by adapter calls and started goroutines alone: the
    fields the engine and the driver own are as they were, and the trace
    has grown by actions of the dispatcher. *)
Definition adapterCallsOnly (s s' : StateMachine) : Prop :=
  currentState s' = currentState s
  /\ env s' = env s
  /\ newStateEvents s' = newStateEvents s
  /\ exists t, trace s' = trace s ++ t
             /\ Forall (fun a => dispatcherAction a = true) t.

(** The first notification the subscriber got, read or still buffered, is
    [st]. *)
Definition sawFirst (st : State) (sub : Subscriber) : Prop :=
  exists rest, received sub ++ buffered sub = st :: rest.

(** [s'] is a later stage of [s]: the [currentState] field is the same,
    the trace has only grown, and subscribers whose first notification was
    [st] still have it first. *)
Definition laterStage (st : State) (s s' : StateMachine) : Prop :=
  currentState s' = currentState s
  /\ (exists t, trace s' = trace s ++ t)
  /\ length (newStateEvents s') = length (newStateEvents s)
  /\ (Forall (sawFirst st) (newStateEvents s) ->
      Forall (sawFirst st) (newStateEvents s')).

(** A trace in which every call of [CleanUp] comes right after the
    publication of a terminal state. *)
Inductive CleanUpsJustified : list Action -> Prop :=
  | Justified_nil : CleanUpsJustified []
  | Justified_other t a :
      CleanUpsJustified t -> cleanUpOf a = None ->
      CleanUpsJustified (t ++ [a])
  | Justified_cleanUp t st :
      CleanUpsJustified (t ++ [ANotifySubscribers st]) ->
      IsTerminal st = true ->
      CleanUpsJustified (t ++ [ANotifySubscribers st; ACleanUp]).

(** The executor a run of the engine leaves. *)
Definition machineOf (r : EngineResult) : StateMachine :=
  match r with
  | Returned _ _ s => s
  | Running s => s
  end.

(** [LoopHead newEvent s0 k q cs s]: the loop of [applyEvents newEvent],
    entered with the executor [s0], is at its head for the (k+1)-th time
    with queue [q], current state [cs] and executor [s]. *)
Inductive LoopHead (newEvent : Event) (s0 : StateMachine)
  : nat -> Queue.t Event -> State -> StateMachine -> Prop :=
  | LoopHead_enter :
      LoopHead newEvent s0 0 (Queue.NewQueue [newEvent]) (currentState s0) s0
  | LoopHead_next k q cs s event q1 q2 cs2 s2 :
      LoopHead newEvent s0 k q cs s ->
      Queue.Dequeue q = (Some event, q1) ->
      applyStep event q1 cs s = (None, (q2, cs2, s2)) ->
      LoopHead newEvent s0 (S k) q2 cs2 s2.

(** The step on [event] in state [cs] fails with [err]: the transition
    function returns it, or the dispatcher returns it for one of the
    emitted daemon events, those before it having been dispatched. *)
Inductive StepFails (cs : State) (event : Event) (s : StateMachine)
    (err : error) : Prop :=
  | ProcessEventFails e :
      ProcessEvent cs event (env s) = (inl err, e) ->
      StepFails cs event s err
  | DispatchFails transition e events before dEvent after s1 s2 :
      ProcessEvent cs event (env s) = (inr transition, e) ->
      NewEvents transition = Some events ->
      ExternalEvents events = Some (before ++ dEvent :: after) ->
      dispatchAll before (withEnv e s) = (None, s1) ->
      executeDaemonEvent dEvent s1 = (Some err, s2) ->
      StepFails cs event s err.

End Executor.

End protofsm.

Module lnwire.

(** ** The TLV stream *)

(** Modelled from the spec: lnd's [tlv] package and [ExtraOpaqueData]
    (extra_bytes.go) are not among the source files, and the spec names the
    wire formats only as collaborators.  The stream held by an
    [ExtraOpaqueData] is kept as the sequence of records its bytes encode,
    each a type and the bytes of its value; [ExtractRecords] and
    [EncodeMessageExtraData] act on it as [tlv.Stream] does: types strictly
    increasing, a known record decoded only from a value of its size, every
    type met entered in the type map. *)
Definition TlvType := N.
Definition TlvRecord := (TlvType * list byte)%type.
Definition ExtraOpaqueDataT := list TlvRecord.

Inductive error : Type :=
  | ErrStreamNotCanonical
  | ErrTypeForDecoding (typ : TlvType) (len expected : nat).

(** A record the caller knows: its type and its static size ([None] for a
    value of any length). *)
Record RecordSpec := {
  recType : TlvType;
  recSize : option nat }.

(** [tlv.TypeMap] and the values decoded into the records handed in. *)
Record Parsed := {
  typeMap : gmap N (list byte);
  values : gmap N (list byte) }.

Definition getRecord (typ : TlvType) (records : list RecordSpec)
  : option RecordSpec :=
  list_find (fun r => recType r = typ) records ≫= (fun p => Some p.2).

Fixpoint decodeStream (records : list RecordSpec) (min : N)
    (stream : ExtraOpaqueDataT) (acc : Parsed) : error + Parsed :=
  match stream with
  | [] => inr acc
  | (typ, val) :: stream =>
      if (typ <? min)%N then inl ErrStreamNotCanonical
      else
        match getRecord typ records with
        | Some rec =>
            match recSize rec with
            | Some n =>
                if decide (length val = n) then
                  decodeStream records (typ + 1)%N stream
                    {| typeMap := <[typ := []]> (typeMap acc);
                       values := <[typ := val]> (values acc) |}
                else inl (ErrTypeForDecoding typ (length val) n)
            | None =>
                decodeStream records (typ + 1)%N stream
                  {| typeMap := <[typ := []]> (typeMap acc);
                     values := <[typ := val]> (values acc) |}
            end
        | None =>
            decodeStream records (typ + 1)%N stream
              {| typeMap := <[typ := val]> (typeMap acc);
                 values := values acc |}
        end
  end.

Definition ExtractRecords (tlvRecords : ExtraOpaqueDataT)
    (records : list RecordSpec) : error + Parsed :=
  decodeStream records 0%N tlvRecords {| typeMap := ∅; values := ∅ |}.

(** [tlv.SortRecords], then the check of [tlv.NewStream] that the types
    ascend strictly. *)
Fixpoint insertRecord (r : TlvRecord) (l : list TlvRecord) : list TlvRecord :=
  match l with
  | [] => [r]
  | x :: l' => if (r.1 <=? x.1)%N then r :: l else x :: insertRecord r l'
  end.

Definition SortRecords (l : list TlvRecord) : list TlvRecord :=
  foldr insertRecord [] l.

Fixpoint canonical (min : N) (l : list TlvRecord) : bool :=
  match l with
  | [] => true
  | (typ, _) :: l' => negb (typ <? min)%N && canonical (typ + 1)%N l'
  end.

Definition EncodeMessageExtraData (recordProducers : list TlvRecord)
  : error + ExtraOpaqueDataT :=
  let records := SortRecords recordProducers in
  if canonical 0%N records then inr records else inl ErrStreamNotCanonical.

(** ** ChannelAnnouncement2 *)

(** [chaincfg.MainNetParams.GenesisHash] (btcd), in the byte order of
    [chainhash.Hash]. *)
Definition MainNetGenesisHash : Hash :=
  [x6f; xe2; x8c; x0a; xb6; xf1; xb3; x72; xc1; xa6; xa2; x46; xae; x63; xf7; x4f;
   x93; x1e; x83; x65; xe1; x5a; x08; x9c; x68; xd6; x19; x00; x00; x00; x00; x00].

(** The message.  Every field but the signature is a TLV record (types 0,
    2, ..., 16) and is kept as the bytes of its value. *)
Record ChannelAnnouncement2 := {
  Signature : list byte;
  ChainHash : Hash;                       (* type 0, [32]byte *)
  Features : list byte;                   (* type 2 *)
  ShortChannelID : list byte;             (* type 4, 8 bytes *)
  Capacity : list byte;                   (* type 6, uint64 *)
  NodeID1 : list byte;                    (* type 8, [33]byte *)
  NodeID2 : list byte;                    (* type 10, [33]byte *)
  BitcoinKey1 : option (list byte);       (* type 12, [33]byte *)
  BitcoinKey2 : option (list byte);       (* type 14, [33]byte *)
  MerkleRootHash : option (list byte);    (* type 16, [32]byte *)
  ExtraOpaqueData : ExtraOpaqueDataT }.

(** The records [DecodeTLVRecords] hands to [ExtractRecords]. *)
Definition knownRecords : list RecordSpec :=
  [ {| recType := 0%N; recSize := Some 32 |};
    {| recType := 2%N; recSize := None |};
    {| recType := 4%N; recSize := Some 8 |};
    {| recType := 6%N; recSize := Some 8 |};
    {| recType := 8%N; recSize := Some 33 |};
    {| recType := 10%N; recSize := Some 33 |};
    {| recType := 12%N; recSize := Some 33 |};
    {| recType := 14%N; recSize := Some 33 |};
    {| recType := 16%N; recSize := Some 32 |} ].

Definition DecodeTLVRecords (c : ChannelAnnouncement2)
    (tlvRecords : ExtraOpaqueDataT) : error + ChannelAnnouncement2 :=
  match ExtractRecords tlvRecords knownRecords with
  | inl err => inl err
  | inr p =>
      let chainHash := default (zeroBytes 32) (values p !! 0%N) in
      let btcKey1 := default (zeroBytes 33) (values p !! 12%N) in
      let btcKey2 := default (zeroBytes 33) (values p !! 14%N) in
      let merkleRootHash := default (zeroBytes 32) (values p !! 16%N) in
      inr {|
        Signature := Signature c;
        (* By default, the chain-hash is the bitcoin mainnet genesis block
           hash. *)
        ChainHash :=
          (let val := MainNetGenesisHash in
           if bool_decide (is_Some (typeMap p !! 0%N)) then chainHash else val);
        Features := default (Features c) (values p !! 2%N);
        ShortChannelID := default (ShortChannelID c) (values p !! 4%N);
        Capacity := default (Capacity c) (values p !! 6%N);
        NodeID1 := default (NodeID1 c) (values p !! 8%N);
        NodeID2 := default (NodeID2 c) (values p !! 10%N);
        BitcoinKey1 :=
          if bool_decide (is_Some (typeMap p !! 12%N)) then Some btcKey1
          else BitcoinKey1 c;
        BitcoinKey2 :=
          if bool_decide (is_Some (typeMap p !! 14%N)) then Some btcKey2
          else BitcoinKey2 c;
        MerkleRootHash :=
          if bool_decide (is_Some (typeMap p !! 16%N)) then Some merkleRootHash
          else MerkleRootHash c;
        ExtraOpaqueData :=
          if decide (length tlvRecords ≠ 0) then tlvRecords
          else ExtraOpaqueData c |}
  end.

(** [c.Signature.ForceSchnorr()] changes the signature's tag, not its
    bytes. *)
Definition Decode (c : ChannelAnnouncement2) (r : list byte * ExtraOpaqueDataT)
  : error + ChannelAnnouncement2 :=
  let c := {|
    Signature := r.1; ChainHash := ChainHash c; Features := Features c;
    ShortChannelID := ShortChannelID c; Capacity := Capacity c;
    NodeID1 := NodeID1 c; NodeID2 := NodeID2 c;
    BitcoinKey1 := BitcoinKey1 c; BitcoinKey2 := BitcoinKey2 c;
    MerkleRootHash := MerkleRootHash c;
    ExtraOpaqueData := ExtraOpaqueData c |} in
  DecodeTLVRecords c r.2.

Definition optionRecord (typ : TlvType) (o : option (list byte))
  : list TlvRecord :=
  match o with
  | Some val => [(typ, val)]
  | None => []
  end.

(** The record producers [DataToSign] collects, in the order it appends
    them. *)
Definition recordProducers (c : ChannelAnnouncement2) : list TlvRecord :=
  (* The chain-hash record is only included if it is _not_ equal to the
     bitcoin mainnet genesis block hash. *)
  (if negb (bool_decide (ChainHash c = MainNetGenesisHash))
   then [(0%N, ChainHash c)] else [])
  ++ [(2%N, Features c); (4%N, ShortChannelID c); (6%N, Capacity c);
      (8%N, NodeID1 c); (10%N, NodeID2 c)]
  ++ optionRecord 12%N (BitcoinKey1 c)
  ++ optionRecord 14%N (BitcoinKey2 c)
  ++ optionRecord 16%N (MerkleRootHash c).

(** [DataToSign] writes the stream into [c.ExtraOpaqueData] and returns it
    with the message as it leaves it. *)
Definition DataToSign (c : ChannelAnnouncement2)
  : error + (ExtraOpaqueDataT * ChannelAnnouncement2) :=
  match EncodeMessageExtraData (recordProducers c) with
  | inl err => inl err
  | inr data =>
      inr (data,
           {| Signature := Signature c; ChainHash := ChainHash c;
              Features := Features c; ShortChannelID := ShortChannelID c;
              Capacity := Capacity c; NodeID1 := NodeID1 c;
              NodeID2 := NodeID2 c; BitcoinKey1 := BitcoinKey1 c;
              BitcoinKey2 := BitcoinKey2 c;
              MerkleRootHash := MerkleRootHash c;
              ExtraOpaqueData := data |})
  end.

(** [Encode]: the signature's bytes, then the stream [DataToSign] left in
    [c.ExtraOpaqueData]. *)
Definition Encode (c : ChannelAnnouncement2)
  : error + (list byte * ExtraOpaqueDataT) :=
  match DataToSign c with
  | inl err => inl err
  | inr (_, c) => inr (Signature c, ExtraOpaqueData c)
  end.

Definition GetChainHash (c : ChannelAnnouncement2) : Hash := ChainHash c.

(** The lengths Go's array types give the fields. *)
Definition wellTyped (c : ChannelAnnouncement2) : Prop :=
  length (ChainHash c) = 32 ∧ length (ShortChannelID c) = 8
  ∧ length (Capacity c) = 8 ∧ length (NodeID1 c) = 33
  ∧ length (NodeID2 c) = 33
  ∧ (∀ k, BitcoinKey1 c = Some k → length k = 33)
  ∧ (∀ k, BitcoinKey2 c = Some k → length k = 33)
  ∧ (∀ h, MerkleRootHash c = Some h → length h = 32).

(** The value of a record has the size the caller's record of that type
    asks for. *)
Definition sizeOK (records : list RecordSpec) (r : TlvRecord) : Prop :=
  match getRecord r.1 records with
  | Some rec =>
      match recSize rec with
      | Some n => length r.2 = n
      | None => True
      end
  | None => True
  end.

(** A fresh message, as [Decode] is handed one. *)
Definition emptyAnnouncement : ChannelAnnouncement2 := {|
  Signature := []; ChainHash := zeroBytes 32; Features := [];
  ShortChannelID := zeroBytes 8; Capacity := zeroBytes 8;
  NodeID1 := zeroBytes 33; NodeID2 := zeroBytes 33;
  BitcoinKey1 := None; BitcoinKey2 := None; MerkleRootHash := None;
  ExtraOpaqueData := [] |}.

(** An announcement of a channel on another chain, with both bitcoin
    keys. *)
Definition sampleAnnouncement : ChannelAnnouncement2 := {|
  Signature := replicate 64 x07; ChainHash := replicate 32 x43;
  Features := [x02; x00];
  ShortChannelID := [x00; x0c; x35; x00; x00; x01; x00; x00];
  Capacity := [x00; x00; x00; x00; x00; x0f; x42; x40];
  NodeID1 := x02 :: replicate 32 x11; NodeID2 := x03 :: replicate 32 x22;
  BitcoinKey1 := Some (x02 :: replicate 32 x33);
  BitcoinKey2 := Some (x03 :: replicate 32 x44);
  MerkleRootHash := None;
  ExtraOpaqueData := [] |}.

End lnwire.

(** * Concrete machines *)

Module Examples.
Import protofsm.

(** Adapters that accept everything, and adapters that refuse everything. *)
Definition okAdapters : DaemonAdapters (D := unit) := {|
  SendMessages _ _ d := (None, d);
  BroadcastTransaction _ _ d := (None, d);
  RegisterConfirmationsNtfn _ _ _ _ d := (inr 7, d);
  RegisterSpendNtfn _ _ _ d := (inr 9, d) |}.

Definition offlineAdapters : DaemonAdapters (D := unit) := {|
  SendMessages _ _ d := (Some (ErrCollaborator "peer offline"), d);
  BroadcastTransaction _ _ d := (Some (ErrCollaborator "rejected"), d);
  RegisterConfirmationsNtfn _ _ _ _ d :=
    (inl (ErrCollaborator "no notifier"), d);
  RegisterSpendNtfn _ _ _ d := (inl (ErrCollaborator "no notifier"), d) |}.

Definition unitEnv : Environment (Env := unit) :=
  {| CleanUp e := (None, e) |}.

(** A -> B -> C -> ...: state n moves to state n+1 on every event. *)
Definition chainOps : StateOps (Event := nat) (State := nat) (Env := unit) := {|
  ProcessEvent st _ e := (inr {| NextState := S st; NewEvents := None |}, e);
  IsTerminal st := false |}.

(** Every event leads to state 1, which is terminal. *)
Definition sinkOps : StateOps (Event := nat) (State := nat) (Env := unit) := {|
  ProcessEvent st _ e := (inr {| NextState := 1; NewEvents := None |}, e);
  IsTerminal st := bool_decide (st = 1) |}.

Definition broadcastX : DaemonEvent (Event := nat) :=
  DBroadcastTxn {| Tx := [x01]; Label := "x" |}.

(** Scenario 2 of the spec: A on e0 broadcasts and emits e1, going to B; B
    stays in B. *)
Definition scenario2Ops : StateOps (Event := nat) (State := nat) (Env := unit) := {|
  ProcessEvent st _ e :=
    (inr (if bool_decide (st = 0)
          then {| NextState := 1;
                  NewEvents := Some {| InternalEvent := Some 1;
                                       ExternalEvents := Some [broadcastX] |} |}
          else {| NextState := 1; NewEvents := None |}), e);
  IsTerminal st := false |}.

(** A emits the internal event e1 and moves to B; B refuses every
    event. *)
Definition refusingOps : StateOps (Event := nat) (State := nat) (Env := unit) := {|
  ProcessEvent st _ e :=
    (if bool_decide (st = 0)
     then inr {| NextState := 1;
                 NewEvents := Some {| InternalEvent := Some 1;
                                      ExternalEvents := None |} |}
     else inl (ErrCollaborator "unexpected event"), e);
  IsTerminal st := false |}.

Definition confEvent6 : RegisterConf (Event := nat) := {|
  Txid := zeroBytes 32; ConfPkScript := [x51]; ConfHeightHint := 100;
  NumConfs := Some 6%Z; PostConfEvent := Some 1 |}.

(** A send gated on a predicate that turns true at its third call. *)
Definition gatedSend : SendMsgEvent (Event := nat) := {|
  TargetPeer := [x02]; Msgs := [[x10]];
  SendWhen := Some (fun k => bool_decide (2 <= k));
  PostSendEvent := Some 1 |}.

Definition machine0 : StateMachine (Event := nat) (State := nat) :=
  NewStateMachine () 0 ().

End Examples.

(** * Start and Stop *)

Module lifecycle.

(** The two [sync.Once] guards of the executor with what they guard: the
    number of driver goroutines [Start] has started and the number of times
    [Stop] has closed [s.quit] (closing a closed channel panics). *)
Record Lifecycle := {
  startOnce : bool;
  stopOnce : bool;
  drivers : nat;
  quitCloses : nat }.

Definition fresh : Lifecycle :=
  {| startOnce := false; stopOnce := false; drivers := 0; quitCloses := 0 |}.

Definition Start (l : Lifecycle) : Lifecycle :=
  if startOnce l then l
  else {| startOnce := true; stopOnce := stopOnce l;
          drivers := S (drivers l); quitCloses := quitCloses l |}.

Definition Stop (l : Lifecycle) : Lifecycle :=
  if stopOnce l then l
  else {| startOnce := startOnce l; stopOnce := true;
          drivers := drivers l; quitCloses := S (quitCloses l) |}.

Inductive Call : Type := CallStart | CallStop.

Definition isStart (c : Call) : bool :=
  match c with CallStart => true | CallStop => false end.

Definition isStop (c : Call) : bool :=
  match c with CallStop => true | CallStart => false end.

Definition call (l : Lifecycle) (c : Call) : Lifecycle :=
  match c with
  | CallStart => Start l
  | CallStop => Stop l
  end.

(** The calls made on one executor, in the order the guards serialise
    them. *)
Definition calls (cs : list Call) (l : Lifecycle) : Lifecycle :=
  foldl call l cs.

End lifecycle.

(** * ChannelAnnouncement2: Validate *)

Module validate.
Import lnwire.

(** What a call gives: it returns an error or nil, or it panics. *)
Inductive Outcome (E : Type) : Type :=
  | Returns (err : option E)
  | Panics.
Arguments Returns {E} err.
Arguments Panics {E}.

Section Validate.

(** The collaborators of [Validate] outside the two source files: keys and
    signatures of btcec, schnorr and musig2, [Sig.ToSignature] and
    [MsgHash].  Each is taken as it is called; an error is the text of its
    message. *)
Context {Key Signature_ : Type}.
Context (ToSignature : list byte -> string + Signature_)
        (ParsePubKey : list byte -> string + Key)
        (schnorrParsePubKey : list byte -> string + Key)
        (AggregateKeys : list Key -> string + Key)
        (Verify : Signature_ -> list byte -> Key -> bool)
        (MsgHash : string -> string -> ExtraOpaqueDataT -> list byte).

Inductive validateError : Type :=
  | ErrEncode (err : error)
  | ErrCollaborator (msg : string)
  | ErrInvalidSig.

Definition chanAnn2MsgName : string := "channel_announcement_2".
Definition chanAnn2SigFieldName : string := "signature".

Definition DigestToSign (c : ChannelAnnouncement2) : error + list byte :=
  match DataToSign c with
  | inl err => inl err
  | inr (data, _) => inr (MsgHash chanAnn2MsgName chanAnn2SigFieldName data)
  end.

(** [pkScript[2:]]: the slice expression panics when the script has fewer
    than two bytes. *)
Definition sliceFrom2 (pkScript : list byte) : option (list byte) :=
  if decide (length pkScript < 2) then None else Some (drop 2 pkScript).

(** The end of [Validate], once the keys are collected. *)
Definition verifyWith (sig : Signature_) (dataHash : list byte)
    (keys : list Key) : Outcome validateError :=
  match AggregateKeys keys with
  | inl err => Returns (Some (ErrCollaborator err))
  | inr aggKey =>
      if negb (Verify sig dataHash aggKey) then Returns (Some ErrInvalidSig)
      else Returns None
  end.

Definition Validate (c : ChannelAnnouncement2)
    (fetchPkScript : list byte -> string + list byte)
  : Outcome validateError :=
  match DigestToSign c with
  | inl err => Returns (Some (ErrEncode err))
  | inr dataHash =>
  match ToSignature (Signature c) with
  | inl err => Returns (Some (ErrCollaborator err))
  | inr sig =>
  match ParsePubKey (NodeID1 c) with
  | inl err => Returns (Some (ErrCollaborator err))
  | inr nodeKey1 =>
  match ParsePubKey (NodeID2 c) with
  | inl err => Returns (Some (ErrCollaborator err))
  | inr nodeKey2 =>
      let keys := [nodeKey1; nodeKey2] in
      if protofsm.IsSome (BitcoinKey1 c) && protofsm.IsSome (BitcoinKey2 c) then
        let btcKey1 := default (zeroBytes 33) (BitcoinKey1 c) in
        let btcKey2 := default (zeroBytes 33) (BitcoinKey2 c) in
        match ParsePubKey btcKey1 with
        | inl err => Returns (Some (ErrCollaborator err))
        | inr bitcoinKey1 =>
        match ParsePubKey btcKey2 with
        | inl err => Returns (Some (ErrCollaborator err))
        | inr bitcoinKey2 =>
            verifyWith sig dataHash (keys ++ [bitcoinKey1; bitcoinKey2])
        end end
      else
        match fetchPkScript (ShortChannelID c) with
        | inl err => Returns (Some (ErrCollaborator err))
        | inr pkScript =>
            match sliceFrom2 pkScript with
            | None => Panics
            | Some rest =>
                match schnorrParsePubKey rest with
                | inl err => Returns (Some (ErrCollaborator err))
                | inr outputKey => verifyWith sig dataHash (keys ++ [outputKey])
                end
            end
        end
  end end end end.

End Validate.

(** Collaborators for the examples: a key is its bytes (33 for a public key,
    32 for an output key), the aggregate key is the concatenation, and a
    signature is valid when it is the hash followed by the aggregate
    key. *)
Definition toyParse (n : nat) (b : list byte) : string + list byte :=
  if decide (length b = n) then inr b else inl "malformed key"%string.

Definition toyHash (_ _ : string) (data : ExtraOpaqueDataT) : list byte :=
  concat (data.*2).

Definition toyVerify (sig hash key : list byte) : bool :=
  bool_decide (sig = hash ++ key).

Definition toyValidate :=
  Validate (fun sig => inr sig) (toyParse 33) (toyParse 32)
    (fun keys => inr (concat keys)) toyVerify toyHash.

End validate.

(** * The executor: what the code does *)

Module ExecutorFacts.
Import protofsm.

Section Facts.

Context {Event State Env D : Type}.
Context {ops : StateOps (Event := Event) (State := State) (Env := Env)}
        {environment : Environment (Env := Env)}
        {adapters : DaemonAdapters (D := D)}.

Abbreviation SM := (StateMachine (Event := Event) (State := State) (Env := Env) (D := D)).

(** ** Adapter calls leave the engine's and the driver's fields alone *)

(** The dispatcher neither enqueues, nor notifies, nor cleans up. *)
Lemma dispatcherAction_quiet
    (t : list (Action (Event := Event) (State := State))) :
  Forall (fun a => dispatcherAction a = true) t ->
  Forall (fun a => enqueuesOrNotifies a = false) t /\ cleanUps t = 0.
Proof.
  induction 1 as [|a t Ha _ [IH1 IH2]]; [by split|].
  split.
  - constructor; [by destruct a|done].
  - unfold cleanUps in *. by destruct a.
Qed.

Lemma adapterCallsOnly_refl (s : SM) : adapterCallsOnly s s.
Proof.
  repeat split; exists []; split; [by rewrite app_nil_r | constructor].
Qed.

Lemma adapterCallsOnly_trans (s1 s2 s3 : SM) :
  adapterCallsOnly s1 s2 -> adapterCallsOnly s2 s3 -> adapterCallsOnly s1 s3.
Proof.
  intros (Hc1 & He1 & Hn1 & t1 & Ht1 & Hq1) (Hc2 & He2 & Hn2 & t2 & Ht2 & Hq2).
  repeat split; try congruence.
  exists (t1 ++ t2); split.
  - by rewrite Ht2, Ht1, app_assoc.
  - by apply Forall_app.
Qed.

Lemma adapterCallsOnly_record (a : Action) (s : SM) :
  dispatcherAction a = true -> adapterCallsOnly s (record a s).
Proof.
  intros Ha. repeat split. exists [a]; split; [done | by constructor].
Qed.

Lemma adapterCallsOnly_go (w : Worker) (s : SM) : adapterCallsOnly s (go w s).
Proof. repeat split. exists []; split; [by rewrite app_nil_r | constructor]. Qed.

Lemma adapterCallsOnly_withDaemon (d : D) (s : SM) :
  adapterCallsOnly s (withDaemon d s).
Proof. repeat split. exists []; split; [by rewrite app_nil_r | constructor]. Qed.

(** Peels [record], [go] and [withDaemon] off the executor reached. *)
Ltac calls_only :=
  lazymatch goal with
  | |- adapterCallsOnly ?s ?s => apply adapterCallsOnly_refl
  | |- adapterCallsOnly _ (record ?a ?s1) =>
      apply adapterCallsOnly_trans with s1;
        [calls_only | apply (adapterCallsOnly_record a); reflexivity]
  | |- adapterCallsOnly _ (go ?w ?s1) =>
      apply adapterCallsOnly_trans with s1;
        [calls_only | apply adapterCallsOnly_go]
  | |- adapterCallsOnly _ (withDaemon ?d ?s1) =>
      apply adapterCallsOnly_trans with s1;
        [calls_only | apply adapterCallsOnly_withDaemon]
  end.

Lemma sendAndCleanUp_calls (daemonEvent : SendMsgEvent) (s : SM) :
  adapterCallsOnly s (sendAndCleanUp daemonEvent s).2.
Proof.
  unfold sendAndCleanUp.
  destruct (SendMessages _ _ _) as [[err|] d]; simpl; [calls_only|].
  destruct (PostSendEvent daemonEvent); calls_only.
Qed.

Lemma executeDaemonEvent_calls (event : DaemonEvent) (s : SM) :
  adapterCallsOnly s (executeDaemonEvent event s).2.
Proof.
  unfold executeDaemonEvent.
  apply adapterCallsOnly_trans with (record (ADispatch event) s); [calls_only|].
  generalize (record (ADispatch event) s); intros s1.
  destruct event as [e|e|e|e|n]; simpl.
  - destruct (IsSome (SendWhen e)); simpl; [calls_only|].
    pose proof (sendAndCleanUp_calls e s1) as H.
    by destruct (sendAndCleanUp e s1).
  - destruct (BroadcastTransaction _ _ _) as [[err|] d]; simpl; calls_only.
  - destruct (RegisterSpendNtfn _ _ _ _) as [[err|h] d]; simpl; calls_only.
  - destruct (RegisterConfirmationsNtfn _ _ _ _ _) as [[err|h] d]; simpl;
      calls_only.
  - calls_only.
Qed.

Lemma dispatchAll_calls (dEvents : DaemonEventSet) (s : SM) :
  adapterCallsOnly s (dispatchAll dEvents s).2.
Proof.
  revert s; induction dEvents as [|d ds IH]; intros s; simpl.
  - apply adapterCallsOnly_refl.
  - pose proof (executeDaemonEvent_calls d s) as H.
    destruct (executeDaemonEvent d s) as [[err|] s1]; simpl in *; [done|].
    eapply adapterCallsOnly_trans; [exact H | apply IH].
Qed.

(** ** The dispatcher *)

(** The sibling case: a spend registration that succeeds returns no
    error. *)
Lemma executeDaemonEvent_RegisterSpend_ok (daemonEvent : RegisterSpend) (s : SM) :
  match (RegisterSpendNtfn (OutPoint daemonEvent) (SpendPkScript daemonEvent)
           (SpendHeightHint daemonEvent) (daemon s)).1 with
  | inr _ => (executeDaemonEvent (DRegisterSpend daemonEvent) s).1 = None
  | inl err =>
      (executeDaemonEvent (DRegisterSpend daemonEvent) s).1
      = Some (ErrWrap "unable to register spend" err)
  end.
Proof.
  unfold executeDaemonEvent; simpl.
  by destruct (RegisterSpendNtfn _ _ _ _) as [[err|h] d].
Qed.

(** C2: the claim says that a RegisterConf event whose registration succeeds
    is dispatched without error.  In the code the RegisterConf case of the
    type switch has no return statement, so control reaches the return
    behind the switch: [executeDaemonEvent] returns the unknown-daemon-event
    error when the registration succeeds (and the wrapped registration
    error when it fails), for every RegisterConf event, every adapter and
    every executor. *)
Theorem executeDaemonEvent_RegisterConf_unknown
    (daemonEvent : RegisterConf) (s : SM) :
  match (RegisterConfirmationsNtfn (Txid daemonEvent) (ConfPkScript daemonEvent)
           (default 1%Z (NumConfs daemonEvent)) (ConfHeightHint daemonEvent)
           (daemon s)).1 with
  | inr _ =>
      (executeDaemonEvent (DRegisterConf daemonEvent) s).1
      = Some ErrUnknownDaemonEvent
  | inl err =>
      (executeDaemonEvent (DRegisterConf daemonEvent) s).1
      = Some (ErrWrap "unable to register conf" err)
  end.
Proof.
  unfold executeDaemonEvent; simpl.
  by destruct (RegisterConfirmationsNtfn _ _ _ _ _) as [[err|h] d].
Qed.

(** C8: for every RegisterConf event the dispatcher makes exactly one adapter
    call, [RegisterConfirmationsNtfn] on the event's txid, script and height
    hint, with confirmation count [NumConfs] when it is present and 1 when
    it is absent. *)
Theorem executeDaemonEvent_RegisterConf_numConfs
    (daemonEvent : RegisterConf) (s : SM) :
  daemon (executeDaemonEvent (DRegisterConf daemonEvent) s).2
  = (RegisterConfirmationsNtfn (Txid daemonEvent) (ConfPkScript daemonEvent)
       (match NumConfs daemonEvent with Some n => n | None => 1%Z end)
       (ConfHeightHint daemonEvent) (daemon s)).2
  /\ trace (executeDaemonEvent (DRegisterConf daemonEvent) s).2
     = trace s
       ++ [ADispatch (DRegisterConf daemonEvent);
           ARegisterConfirmationsNtfn (Txid daemonEvent)
             (ConfPkScript daemonEvent)
             (match NumConfs daemonEvent with Some n => n | None => 1%Z end)
             (ConfHeightHint daemonEvent)].
Proof.
  unfold executeDaemonEvent; simpl.
  replace (default 1%Z (NumConfs daemonEvent))
    with (match NumConfs daemonEvent with Some n => n | None => 1%Z end)
    by (by destruct (NumConfs daemonEvent)).
  destruct (RegisterConfirmationsNtfn _ _ _ _ _) as [[err|h] d]; simpl;
    by rewrite <- app_assoc.
Qed.

(** ** The predicate poller *)

(** While the predicate answers false the poller does nothing. *)
Lemma pollSendWhen_false_ticks (daemonEvent : SendMsgEvent)
    (pred : SendPredicate) (n k : nat) (sel : list Select) (s : SM) :
  SendWhen daemonEvent = Some pred ->
  (forall i, i < n -> pred (k + i) = false) ->
  pollSendWhen daemonEvent k (replicate n Fired ++ sel) s
  = pollSendWhen daemonEvent (k + n) sel s.
Proof.
  intros Hp. revert k; induction n as [|n IH]; intros k Hf; simpl.
  - by rewrite Nat.add_0_r.
  - rewrite Hp; simpl.
    rewrite <- (Nat.add_0_r k) at 1. rewrite (Hf 0) by lia.
    rewrite IH.
    + f_equal; lia.
    + intros i Hi. replace (S k + i) with (k + S i) by lia. apply Hf; lia.
Qed.

(** C9: for a SendMessage event with a sendWhen predicate the dispatcher
    returns no error and only starts the poller; and when the predicate
    first answers true (at its (n+1)-th call) and the adapter's
    [SendMessages] then fails, the poller ends having made that one call:
    it starts no goroutine (so the postSend event is never handed to
    SendEvent), logs nothing, and puts no event on the intake channel. *)
Theorem SendWhen_send_error_discarded
    (daemonEvent : SendMsgEvent) (pred : SendPredicate) (s : SM)
    (n : nat) (sel : list Select) (s1 : SM) (err : error) (d : D) :
  SendWhen daemonEvent = Some pred ->
  (forall i, i < n -> pred i = false) ->
  pred n = true ->
  SendMessages (TargetPeer daemonEvent) (Msgs daemonEvent) (daemon s1)
  = (Some err, d) ->
  executeDaemonEvent (DSendMsgEvent daemonEvent) s
  = (None, go (WSendWhen daemonEvent)
             (record (ADispatch (DSendMsgEvent daemonEvent)) s))
  /\ runWorker (WSendWhen daemonEvent) (replicate (S n) Fired ++ sel) s1
     = ([], record (ASendMessages (TargetPeer daemonEvent) (Msgs daemonEvent))
              (withDaemon d s1))
  /\ spawned (runWorker (WSendWhen daemonEvent)
                (replicate (S n) Fired ++ sel) s1).2 = spawned s1
  /\ trace (runWorker (WSendWhen daemonEvent)
              (replicate (S n) Fired ++ sel) s1).2
     = trace s1 ++ [ASendMessages (TargetPeer daemonEvent) (Msgs daemonEvent)].
Proof.
  intros Hp Hf Ht Hsend.
  assert (Hrun : runWorker (WSendWhen daemonEvent)
                   (replicate (S n) Fired ++ sel) s1
                 = ([], record (ASendMessages (TargetPeer daemonEvent)
                                  (Msgs daemonEvent)) (withDaemon d s1))).
  { unfold runWorker. f_equal.
    change (replicate (S n) Fired ++ sel)
      with (Fired :: (replicate n Fired ++ sel)).
    replace (Fired :: (replicate n Fired ++ sel))
      with (replicate n Fired ++ Fired :: sel).
    2:{ clear. induction n as [|n IH]; simpl; [done | by rewrite IH]. }
    rewrite (pollSendWhen_false_ticks daemonEvent pred n 0) by done.
    simpl. rewrite Hp; simpl. rewrite Ht.
    unfold sendAndCleanUp. by rewrite Hsend. }
  split; [|rewrite Hrun; done].
  unfold executeDaemonEvent; simpl. by rewrite Hp.
Qed.

(** ** The transition engine *)

Lemma executeDaemonEvent_dispatched (event : DaemonEvent) (s : SM) :
  exists t, trace (executeDaemonEvent event s).2 = trace s ++ ADispatch event :: t
            /\ dispatched t = []
            /\ Forall (fun a => enqueuesOrNotifies a = false) t.
Proof.
  assert (Htail : forall (A : Type) (l : list A) a b, (l ++ [a]) ++ [b] = l ++ a :: [b])
    by (intros; by rewrite <- app_assoc).
  unfold executeDaemonEvent.
  destruct event as [e|e|e|e|n]; simpl.
  - destruct (IsSome (SendWhen e)); simpl.
    + exists []. repeat split; constructor.
    + unfold sendAndCleanUp; simpl.
      destruct (SendMessages _ _ _) as [[err|] d]; simpl;
        [|destruct (PostSendEvent e); simpl];
        (eexists; split; [apply Htail | split; [done | repeat constructor]]).
  - destruct (BroadcastTransaction _ _ _) as [[err|] d]; simpl;
      (eexists; split; [apply Htail | split; [done | repeat constructor]]).
  - destruct (RegisterSpendNtfn _ _ _ _) as [[err|h] d]; simpl;
      (eexists; split; [apply Htail | split; [done | repeat constructor]]).
  - destruct (RegisterConfirmationsNtfn _ _ _ _ _) as [[err|h] d]; simpl;
      (eexists; split; [apply Htail | split; [done | repeat constructor]]).
  - exists []. repeat split; constructor.
Qed.

(** A set dispatched without error was dispatched whole and in order. *)
Lemma dispatchAll_in_order (dEvents : DaemonEventSet) (s s1 : SM) :
  dispatchAll dEvents s = (None, s1) ->
  exists t, trace s1 = trace s ++ t
            /\ dispatched t = dEvents
            /\ Forall (fun a => enqueuesOrNotifies a = false) t.
Proof.
  revert s; induction dEvents as [|d ds IH]; intros s; simpl.
  - intros [= <-]. exists []. by rewrite app_nil_r.
  - destruct (executeDaemonEvent_dispatched d s) as (t1 & Ht1 & Hd1 & Hq1).
    destruct (executeDaemonEvent d s) as [[err|] s2]; simpl in *; [done|].
    intros H. destruct (IH _ H) as (t2 & Ht2 & Hd2 & Hq2).
    exists ((ADispatch d :: t1) ++ t2). split; [|split].
    + by rewrite Ht2, Ht1, app_assoc.
    + unfold dispatched in *. rewrite omap_app, Hd2.
      change (omap dispatchOf (ADispatch d :: t1))
        with (d :: omap dispatchOf t1).
      by rewrite Hd1.
    + apply Forall_app; split; [by constructor | done].
Qed.

(** The loop over the set stops at the first event the dispatcher
    refuses. *)
Lemma dispatchAll_first_error (before after : DaemonEventSet)
    (dEvent : DaemonEvent) (s s1 s2 : SM) (err : error) :
  dispatchAll before s = (None, s1) ->
  executeDaemonEvent dEvent s1 = (Some err, s2) ->
  dispatchAll (before ++ dEvent :: after) s = (Some err, s2).
Proof.
  revert s; induction before as [|d ds IH]; intros s; simpl.
  - intros [= <-] ->. done.
  - destruct (executeDaemonEvent d s) as [[e|] s3]; [done|]. apply IH.
Qed.

(** Running the loop from its k-th head is running it from its start with
    k more units of fuel. *)
Lemma LoopHead_applyLoop (newEvent : Event) (s0 : SM) (k : nat)
    (q : Queue.t Event) (cs : State) (s : SM) :
  LoopHead newEvent s0 k q cs s ->
  forall fuel, applyEvents (k + fuel) newEvent s0 = applyLoop fuel q cs s.
Proof.
  induction 1 as [|k q cs s event q1 q2 cs2 s2 _ IH Hdq Hstep]; intros fuel.
  - done.
  - replace (S k + fuel) with (k + S fuel) by lia.
    rewrite IH; simpl. by rewrite Hdq, Hstep.
Qed.

Lemma StepFails_applyStep (cs : State) (event : Event) (s : SM) (err : error)
    (q : Queue.t Event) :
  StepFails cs event s err ->
  exists s', applyStep event q cs s = (Some err, (q, cs, s'))
             /\ currentState s' = currentState s
             /\ newStateEvents s' = newStateEvents s
             /\ exists t, trace s' = trace s ++ t
                  /\ Forall (fun a => enqueuesOrNotifies a = false) t.
Proof.
  intros [e Hp | transition e events before dEvent after s1 s2 Hp Hn Hx Hb Hd];
    unfold applyStep; rewrite Hp.
  - exists (withEnv e s). repeat split. exists []. by rewrite app_nil_r.
  - rewrite Hn; simpl. unfold processNewEvents. rewrite Hx; simpl.
    rewrite (dispatchAll_first_error _ _ _ _ _ _ _ Hb Hd).
    exists s2. split; [done|].
    pose proof (dispatchAll_calls before (withEnv e s)) as H1.
    rewrite Hb in H1.
    pose proof (executeDaemonEvent_calls dEvent s1) as H2.
    rewrite Hd in H2.
    destruct (adapterCallsOnly_trans _ _ _ H1 H2)
      as (Hc & _ & Hs & t & Ht & Hq).
    repeat split; [done..|]. exists t. split; [done|].
    by apply dispatcherAction_quiet.
Qed.

(** C4: when the step on some event of the chain fails -- the transition
    function returns an error, or the dispatcher returns one for an emitted
    daemon event -- the engine returns at once with the error and the current
    state as the steps before left it; the failing step enqueues nothing
    (the closure leaves the queue as it found it), does not replace the
    current state, and publishes nothing: the trace grows by adapter calls
    alone and no subscriber's buffer changes. *)
Theorem applyEvents_aborts_on_error (newEvent : Event) (s0 : SM) (k : nat)
    (q : Queue.t Event) (cs : State) (s : SM) (event : Event)
    (q1 : Queue.t Event) (err : error) :
  LoopHead newEvent s0 k q cs s ->
  Queue.Dequeue q = (Some event, q1) ->
  StepFails cs event s err ->
  exists s',
    (forall fuel, k < fuel ->
       applyEvents fuel newEvent s0 = Returned cs (Some err) s')
    /\ applyStep event q1 cs s = (Some err, (q1, cs, s'))
    /\ newStateEvents s' = newStateEvents s
    /\ exists t, trace s' = trace s ++ t
         /\ Forall (fun a => enqueuesOrNotifies a = false) t.
Proof.
  intros Hhead Hdq Hfail.
  destruct (StepFails_applyStep cs event s err q1 Hfail)
    as (s' & Hstep & _ & Hsubs & Htrace).
  exists s'. split; [|done].
  intros fuel Hk.
  replace fuel with (k + S (fuel - S k)) by lia.
  rewrite (LoopHead_applyLoop _ _ _ _ _ _ Hhead); simpl.
  by rewrite Hdq, Hstep.
Qed.

(** Dequeuing returns what was enqueued, oldest first. *)
Lemma Queue_fifo {A} (items : list A) :
  Queue.drain (S (length items))
    (foldl (fun q x => Queue.Enqueue x q) (Queue.NewQueue []) items)
  = items.
Proof.
  assert (Hfold : forall q0 : Queue.t A,
             foldl (fun q x => Queue.Enqueue x q) q0 items = q0 ++ items).
  { induction items as [|x l IH]; intros q0; simpl.
    - by rewrite app_nil_r.
    - rewrite IH. unfold Queue.Enqueue. by rewrite <- app_assoc. }
  rewrite Hfold; simpl. unfold Queue.NewQueue; simpl.
  induction items as [|x l IH]; simpl; [done|].
  f_equal. apply IH.
  intros q0. clear. revert q0.
  induction l as [|y l IH]; intros q0; simpl.
  - by rewrite app_nil_r.
  - rewrite IH. unfold Queue.Enqueue. by rewrite <- app_assoc.
Qed.

(** C5: a transition that emits an external event set and an internal
    event, and whose daemon events are all dispatched without error: the
    step dispatches the whole set in its declared order, then enqueues the
    internal event, at the tail of the queue, then publishes the next
    state.  The queue gives back what was enqueued oldest first. *)
Theorem applyStep_dispatches_then_enqueues (event : Event)
    (q : Queue.t Event) (cs : State) (s : SM)
    (transition : StateTransition) (e : Env) (events : EmittedEvent)
    (dEvents : DaemonEventSet) (inEvent : Event) (s1 : SM) :
  ProcessEvent cs event (env s) = (inr transition, e) ->
  NewEvents transition = Some events ->
  ExternalEvents events = Some dEvents ->
  InternalEvent events = Some inEvent ->
  dispatchAll dEvents (withEnv e s) = (None, s1) ->
  applyStep event q cs s
  = (None, (q ++ [inEvent], NextState transition,
            NotifySubscribers (NextState transition)
              (record (AEnqueue inEvent) s1)))
  /\ (exists t,
        dispatched t = dEvents
        /\ Forall (fun a => enqueuesOrNotifies a = false) t
        /\ trace (NotifySubscribers (NextState transition)
                    (record (AEnqueue inEvent) s1))
           = trace s ++ t ++ [AEnqueue inEvent;
                              ANotifySubscribers (NextState transition)])
  /\ Queue.Dequeue (Queue.Enqueue inEvent q)
     = match q with
       | [] => (Some inEvent, [])
       | oldest :: rest => (Some oldest, Queue.Enqueue inEvent rest)
       end
  /\ (forall items : list Event,
        Queue.drain (S (length items))
          (foldl (fun q x => Queue.Enqueue x q) (Queue.NewQueue []) items)
        = items).
Proof.
  intros Hp Hn Hx Hi Hd. split; [|split; [|split]].
  - unfold applyStep. rewrite Hp, Hn; simpl.
    unfold processNewEvents. rewrite Hx; simpl. by rewrite Hd, Hi.
  - destruct (dispatchAll_in_order _ _ _ Hd) as (t & Ht & Hdis & Hq).
    exists t. split; [done|]. split; [done|].
    simpl. rewrite Ht; simpl. by rewrite <- !app_assoc.
  - by destruct q.
  - apply Queue_fifo.
Qed.

(** ** The driver *)

Lemma laterStage_refl (st : State) (s : SM) : laterStage st s s.
Proof. repeat split; [|done]. exists []. by rewrite app_nil_r. Qed.

Lemma laterStage_trans (st : State) (s1 s2 s3 : SM) :
  laterStage st s1 s2 -> laterStage st s2 s3 -> laterStage st s1 s3.
Proof.
  intros (Hc1 & [t1 Ht1] & Hl1 & Hf1) (Hc2 & [t2 Ht2] & Hl2 & Hf2).
  repeat split; [congruence| |congruence|auto].
  exists (t1 ++ t2). by rewrite Ht2, Ht1, app_assoc.
Qed.

Lemma adapterCallsOnly_laterStage (st : State) (s s' : SM) :
  adapterCallsOnly s s' -> laterStage st s s'.
Proof.
  intros (Hc & _ & Hn & t & Ht & _). repeat split; [done| |by rewrite Hn..].
  by exists t.
Qed.

Lemma laterStage_record (st : State) (a : Action) (s : SM) :
  laterStage st s (record a s).
Proof. repeat split; [|done]. by exists [a]. Qed.

Lemma laterStage_withEnv (st : State) (e : Env) (s : SM) :
  laterStage st s (withEnv e s).
Proof. repeat split; [|done]. exists []. by rewrite app_nil_r. Qed.

Lemma sawFirst_deliver (st st' : State) (sub : Subscriber) :
  sawFirst st sub -> sawFirst st (deliver st' sub).
Proof.
  intros [rest H]. unfold deliver. case_decide; [|by exists rest].
  exists (rest ++ [st']); simpl. by rewrite app_assoc, H.
Qed.

Lemma sawFirst_readOne (st : State) (sub : Subscriber) :
  sawFirst st sub -> sawFirst st (readOne sub).
Proof.
  intros [rest H]. unfold readOne.
  destruct (buffered sub) as [|x b] eqn:Hb; [exists rest; by rewrite Hb|].
  exists rest; simpl. by rewrite <- app_assoc.
Qed.

Lemma laterStage_NotifySubscribers (st st' : State) (s : SM) :
  laterStage st s (NotifySubscribers st' s).
Proof.
  repeat split; simpl.
  - by eexists [_].
  - apply length_fmap.
  - intros H. apply Forall_fmap. eapply Forall_impl; [exact H|].
    intros sub. apply sawFirst_deliver.
Qed.

Lemma laterStage_subscriberReads (st : State) (i : nat) (s : SM) :
  laterStage st s (subscriberReads i s).
Proof.
  repeat split; simpl.
  - exists []. by rewrite app_nil_r.
  - apply length_alter.
  - intros H. apply Forall_alter; [done|].
    intros sub _. apply sawFirst_readOne.
Qed.

Lemma laterStage_cleanUpEnv (st : State) (s : SM) :
  laterStage st s (cleanUpEnv s).
Proof.
  unfold cleanUpEnv. destruct (CleanUp (env s)) as [[err|] e].
  - eapply laterStage_trans; [apply (laterStage_withEnv st e)|].
    eapply laterStage_trans; apply laterStage_record.
  - eapply laterStage_trans; [apply (laterStage_withEnv st e)|].
    apply laterStage_record.
Qed.

Lemma laterStage_applyStep (st : State) (event : Event) (q : Queue.t Event)
    (cs : State) (s : SM) :
  laterStage st s (applyStep event q cs s).2.2.
Proof.
  unfold applyStep.
  destruct (ProcessEvent cs event (env s)) as [[err|transition] e]; simpl.
  { apply laterStage_withEnv. }
  apply laterStage_trans with (withEnv e s); [apply laterStage_withEnv|].
  generalize (withEnv e s); intros s1.
  destruct (NewEvents transition) as [events|]; simpl.
  2:{ apply laterStage_NotifySubscribers. }
  unfold processNewEvents.
  assert (Hd : exists r s2,
             MapOptionZ (None, s1) (ExternalEvents events)
               (fun dEvents => dispatchAll dEvents s1) = (r, s2)
             /\ laterStage st s1 s2).
  { destruct (ExternalEvents events) as [dEvents|]; simpl.
    - pose proof (dispatchAll_calls dEvents s1) as H.
      destruct (dispatchAll dEvents s1) as [r s2].
      exists r, s2. split; [done|]. by apply adapterCallsOnly_laterStage.
    - exists None, s1. split; [done | apply laterStage_refl]. }
  destruct Hd as (r & s2 & -> & Hs2).
  destruct r as [err|]; simpl; [done|].
  destruct (InternalEvent events) as [inEvent|]; simpl.
  - eapply laterStage_trans; [exact Hs2|].
    eapply laterStage_trans; [apply (laterStage_record st (AEnqueue inEvent))|].
    apply laterStage_NotifySubscribers.
  - eapply laterStage_trans; [exact Hs2|]. apply laterStage_NotifySubscribers.
Qed.

Lemma laterStage_applyLoop (st : State) (fuel : nat) (q : Queue.t Event)
    (cs : State) (s : SM) :
  laterStage st s (machineOf (applyLoop fuel q cs s)).
Proof.
  revert q cs s; induction fuel as [|fuel IH]; intros q cs s; simpl.
  { apply laterStage_refl. }
  destruct q as [|event q]; simpl; [apply laterStage_refl|].
  pose proof (laterStage_applyStep st event q cs s) as H.
  destruct (applyStep event q cs s) as [[err|] [[q2 cs2] s2]]; simpl in *;
    [done|].
  eapply laterStage_trans; [exact H | apply IH].
Qed.

Lemma laterStage_driveLoop (st : State) (fuel : nat) (inputs : list Input)
    (cs : State) (s : SM) :
  laterStage st s (driveLoop fuel inputs cs s).2.
Proof.
  revert cs s; induction inputs as [|input inputs IH]; intros cs s; simpl.
  { apply laterStage_refl. }
  destruct input as [newEvent|reply| |i].
  - pose proof (laterStage_applyLoop st fuel (Queue.NewQueue [newEvent])
                  (currentState s) s) as H.
    unfold applyEvents.
    destruct (applyLoop _ _ _ _) as [newState [err|] s1|s1]; simpl in *;
      [| |done].
    + eapply laterStage_trans; [exact H|].
      eapply laterStage_trans; [apply laterStage_record | apply IH].
    + eapply laterStage_trans; [exact H|].
      eapply laterStage_trans; [|apply IH].
      destruct (IsTerminal newState);
        [apply laterStage_cleanUpEnv | apply laterStage_refl].
  - destruct reply; simpl; [|apply laterStage_refl].
    eapply laterStage_trans; [apply laterStage_record | apply IH].
  - apply laterStage_refl.
  - eapply laterStage_trans; [apply laterStage_subscriberReads | apply IH].
Qed.

(** ** CleanUp comes only after a chain that ended in a terminal state *)

Abbreviation noCleanUp :=
  (Forall (fun a : Action (Event := Event) (State := State) =>
             cleanUpOf a = None)).

Lemma CleanUpsJustified_app (t t' : list Action) :
  CleanUpsJustified t -> noCleanUp t' -> CleanUpsJustified (t ++ t').
Proof.
  intros Ht Hfree. revert t Ht.
  induction Hfree as [|a t' Ha _ IH]; intros t Ht.
  - by rewrite app_nil_r.
  - replace (t ++ a :: t') with ((t ++ [a]) ++ t') by (by rewrite <- app_assoc).
    apply IH. by constructor.
Qed.

Lemma dispatcherAction_noCleanUp (t : list Action) :
  Forall (fun a => dispatcherAction a = true) t -> noCleanUp t.
Proof. intros H. eapply Forall_impl; [exact H|]. by intros []. Qed.

(** A step that succeeds ends with the publication of the state it moved
    to; a step that fails has called adapters at most. *)
Lemma applyStep_trace (event : Event) (q : Queue.t Event) (cs : State)
    (s : SM) :
  exists t, noCleanUp t
    /\ match applyStep event q cs s with
       | (None, (_, cs2, s2)) =>
           trace s2 = trace s ++ t ++ [ANotifySubscribers cs2]
       | (Some _, (_, _, s2)) => trace s2 = trace s ++ t
       end.
Proof.
  unfold applyStep.
  destruct (ProcessEvent cs event (env s)) as [[err|transition] e]; simpl.
  { exists []. split; [constructor | by rewrite app_nil_r]. }
  destruct (NewEvents transition) as [events|]; simpl.
  2:{ exists []. split; [constructor | done]. }
  unfold processNewEvents.
  assert (Hd : exists r s2 t,
             MapOptionZ (None, withEnv e s) (ExternalEvents events)
               (fun dEvents => dispatchAll dEvents (withEnv e s)) = (r, s2)
             /\ trace s2 = trace s ++ t /\ noCleanUp t).
  { destruct (ExternalEvents events) as [dEvents|]; simpl.
    - pose proof (dispatchAll_calls dEvents (withEnv e s)) as H.
      destruct (dispatchAll dEvents (withEnv e s)) as [r s2].
      destruct H as (_ & _ & _ & t & Ht & Hq).
      exists r, s2, t. split; [done|]. split; [done|].
      by apply dispatcherAction_noCleanUp.
    - exists None, (withEnv e s), []. split; [done|].
      split; [by rewrite app_nil_r | constructor]. }
  destruct Hd as (r & s2 & t & -> & Ht & Hfree).
  destruct r as [err|]; simpl; [by exists t|].
  destruct (InternalEvent events) as [inEvent|]; simpl.
  - exists (t ++ [AEnqueue inEvent]). split.
    + apply Forall_app. split; [done | by repeat constructor].
    + rewrite Ht. by rewrite <- !app_assoc.
  - exists t. split; [done|]. rewrite Ht. by rewrite <- app_assoc.
Qed.

(** A run of the engine calls no [CleanUp], and one that returns without
    error has, if it took a step at all, just published the state it
    returns. *)
Lemma applyLoop_trace (fuel : nat) (q : Queue.t Event) (cs : State) (s : SM) :
  exists t, noCleanUp t
    /\ trace (machineOf (applyLoop fuel q cs s)) = trace s ++ t
    /\ forall cs' s', applyLoop fuel q cs s = Returned cs' None s' ->
         (q = [] /\ t = [] /\ cs' = cs)
         \/ exists t0, t = t0 ++ [ANotifySubscribers cs'].
Proof.
  revert q cs s; induction fuel as [|fuel IH]; intros q cs s; simpl.
  { exists []. split; [constructor|]. split; [by rewrite app_nil_r | done]. }
  destruct q as [|event q]; simpl.
  { exists []. split; [constructor|]. split; [by rewrite app_nil_r|].
    intros cs' s' [= <- _]. by left. }
  destruct (applyStep_trace event q cs s) as (t1 & Hfree1 & Hstep).
  destruct (applyStep event q cs s) as [[err|] [[q2 cs2] s2]]; simpl.
  { exists t1. split; [done|]. split; [done|]. done. }
  destruct (IH q2 cs2 s2) as (t2 & Hfree2 & Ht2 & Hret).
  exists ((t1 ++ [ANotifySubscribers cs2]) ++ t2). split; [|split].
  - repeat (apply Forall_app; split); [done| |done]. by repeat constructor.
  - rewrite Ht2, Hstep. by rewrite <- !app_assoc.
  - intros cs' s' Hrun. right.
    destruct (Hret cs' s' Hrun) as [(_ & -> & ->)|[t0 ->]].
    + rewrite app_nil_r. by exists t1.
    + exists ((t1 ++ [ANotifySubscribers cs2]) ++ t0).
      by rewrite <- !app_assoc.
Qed.

Lemma CleanUpsJustified_driveLoop (fuel : nat) (inputs : list Input)
    (cs : State) (s : SM) :
  CleanUpsJustified (trace s) ->
  CleanUpsJustified (trace (driveLoop fuel inputs cs s).2).
Proof.
  revert cs s; induction inputs as [|input inputs IH]; intros cs s Hj; simpl.
  { done. }
  destruct input as [newEvent|reply| |i].
  - unfold applyEvents.
    destruct (applyLoop_trace fuel (Queue.NewQueue [newEvent])
                (currentState s) s) as (t & Hfree & Ht & Hret).
    destruct (applyLoop _ _ _ _) as [newState [err|] s1|s1] eqn:Hrun;
      simpl in *.
    + apply IH; simpl. rewrite Ht.
      apply Justified_other; [by apply CleanUpsJustified_app | done].
    + apply IH.
      destruct (IsTerminal newState) eqn:Hterm;
        [|rewrite Ht; by apply CleanUpsJustified_app].
      destruct (Hret newState s1 eq_refl) as [(Hq & _)|[t0 ->]]; [done|].
      apply Forall_app in Hfree as [Hfree0 _].
      assert (Hcl : CleanUpsJustified
                      (trace s1 ++ [ACleanUp])).
      { rewrite Ht, app_assoc, <- app_assoc. simpl.
        apply Justified_cleanUp; [|done].
        apply Justified_other; [by apply CleanUpsJustified_app | done]. }
      unfold cleanUpEnv. destruct (CleanUp (env s1)) as [[e1|] e2]; simpl;
        [by apply Justified_other | done].
    + rewrite Ht. by apply CleanUpsJustified_app.
  - destruct reply; simpl; [|done].
    apply IH; simpl. by apply Justified_other.
  - done.
  - by apply IH.
Qed.

(** X12: in the trace of the driver every call of [CleanUp] comes right
    after the publication of a state whose [IsTerminal] is true: the call
    is made only after an event chain that ended in a terminal state. *)
Lemma cleanUp_only_after_terminal_chain (fuel : nat) (inputs : list Input)
    (s : SM) :
  CleanUpsJustified (trace s) ->
  CleanUpsJustified (trace (driveMachine fuel inputs s).2).
Proof.
  intros Hj. unfold driveMachine. apply CleanUpsJustified_driveLoop; simpl.
  by apply Justified_other.
Qed.

(** The [currentState] field of the executor is written by
    [NewStateMachine] alone: whatever the driver has been through, the
    field holds the initial state, and the next run of the engine starts
    from it. *)
Lemma driveMachine_currentState_field (fuel : nat) (inputs : list Input)
    (s : SM) (newEvent : Event) :
  currentState (driveMachine fuel inputs s).2 = currentState s
  /\ applyEvents fuel newEvent (driveMachine fuel inputs s).2
     = applyLoop fuel (Queue.NewQueue [newEvent]) (currentState s)
         (driveMachine fuel inputs s).2.
Proof.
  assert (H : currentState (driveMachine fuel inputs s).2 = currentState s).
  { unfold driveMachine.
    destruct (laterStage_driveLoop (currentState s) fuel inputs (currentState s)
                (NotifySubscribers (currentState s) s)) as (Hc & _).
    by rewrite Hc. }
  split; [done|]. unfold applyEvents. by rewrite H.
Qed.

(** C6: the driver publishes the initial state before it waits on any
    channel (with no input at all it is blocked in its select and the
    notification is out); whatever comes in, the initial-state notification
    is the first action of the driver, ahead of every other notification;
    and every subscriber registered before the start (its buffer is still
    empty) has the initial state as the first notification it reads or
    holds. *)
Theorem driveMachine_initial_notification (fuel : nat) (inputs : list Input)
    (s : SM) :
  driveMachine fuel [] s
  = (Waiting, currentState s, NotifySubscribers (currentState s) s)
  /\ (exists t, trace (driveMachine fuel inputs s).2
                = trace s ++ ANotifySubscribers (currentState s) :: t)
  /\ length (newStateEvents (driveMachine fuel inputs s).2)
     = length (newStateEvents s)
  /\ (Forall (fun sub => sub = NewEventReceiver) (newStateEvents s) ->
      Forall (sawFirst (currentState s))
        (newStateEvents (driveMachine fuel inputs s).2)).
Proof.
  split; [done|]. unfold driveMachine.
  destruct (laterStage_driveLoop (currentState s) fuel inputs (currentState s)
              (NotifySubscribers (currentState s) s))
    as (_ & [t Ht] & Hlen & Hfirst).
  split; [|split].
  - exists t. rewrite Ht; simpl. by rewrite <- app_assoc.
  - rewrite Hlen; simpl. apply length_fmap.
  - intros Hfresh. apply Hfirst; simpl.
    apply Forall_fmap. eapply Forall_impl; [exact Hfresh|].
    intros sub ->. by exists [].
Qed.

(** ** The state query *)

(** C7, as the code has it: [CurrentState] fails with the shutting-down
    error when the query cannot be handed to the driver because shutdown was
    signalled; once the driver has taken the query, it fails with the
    timeout error when no reply arrives within [time.Second] (none at all,
    or one later than 1 000 000 000 ns after the hand-over) and returns the
    state of the reply and no error when the reply arrives before that;
    whenever it returns, it is with one of these three; and while the
    driver does not take the query and shutdown is not signalled it does
    not return: the deadline does not cover the hand-over. *)
Theorem CurrentState_outcomes (handOver : option Select)
    (reply : option (Z * State)) (tie : bool) :
  (handOver = Some Quit ->
   CurrentState handOver reply tie = Some (None, Some ErrShuttingDown))
  /\ (handOver = Some Fired ->
      (reply = None \/ exists t m, reply = Some (t, m) /\ (1000000000 < t)%Z) ->
      CurrentState handOver reply tie = Some (None, Some ErrTimeout))
  /\ (handOver = Some Fired ->
      forall t m, reply = Some (t, m) -> (t < 1000000000)%Z ->
      CurrentState handOver reply tie = Some (Some m, None))
  /\ (forall r, CurrentState handOver reply tie = Some r ->
      r = (None, Some ErrShuttingDown) \/ r = (None, Some ErrTimeout)
      \/ exists m, r = (Some m, None))
  /\ (handOver = None -> CurrentState handOver reply tie = None).
Proof.
  unfold CurrentState, RecvOrTimeout, time_Second.
  split; [by intros ->|]. split; [|split; [|split]].
  - intros -> [->|(t & m & -> & Ht)]; simpl; [done|].
    destruct (Z.ltb_spec t 1000000000); [lia|].
    destruct (Z.eqb_spec t 1000000000); [lia|]. done.
  - intros -> t m -> Ht; simpl.
    by destruct (Z.ltb_spec t 1000000000); [|lia].
  - destruct handOver as [[|]|]; simpl; intros r [= <-]; [|by left].
    destruct reply as [[t m]|]; [|by right; left].
    destruct (_ || _); [right; right; by exists m | by right; left].
  - by intros ->.
Qed.

End Facts.

(** ** The facts on concrete machines *)

Section OnExamples.

Import Examples.

(** Two failing chains.  On the machine whose state B refuses every event,
    the second step of the chain of e0 fails: the engine returns B, the
    state the first step moved to, and the error.  In scenario 2 with
    adapters that refuse, the broadcast of the first step fails: the engine
    returns A and the wrapped error. *)
Lemma applyEvents_aborts_on_error_witness :
  (exists s',
     (forall fuel, 1 < fuel ->
        applyEvents (ops := refusingOps) (adapters := okAdapters)
          fuel 0 machine0
        = Returned 1 (Some (ErrCollaborator "unexpected event")) s')
     /\ applyStep (ops := refusingOps) (adapters := okAdapters) 1 [] 1
          (NotifySubscribers 1 (record (AEnqueue 1) machine0))
        = (Some (ErrCollaborator "unexpected event"), ([], 1, s'))
     /\ newStateEvents s' = []
     /\ exists t, trace s' = [AEnqueue 1; ANotifySubscribers 1] ++ t
          /\ Forall (fun a => enqueuesOrNotifies a = false) t)
  /\ (exists s',
       (forall fuel, 0 < fuel ->
          applyEvents (ops := scenario2Ops) (adapters := offlineAdapters)
            fuel 0 machine0
          = Returned 0
              (Some (ErrWrap "unable to broadcast txn"
                       (ErrCollaborator "rejected")))
              s')
       /\ applyStep (ops := scenario2Ops) (adapters := offlineAdapters)
            0 [] 0 machine0
          = (Some (ErrWrap "unable to broadcast txn"
                     (ErrCollaborator "rejected")),
             ([], 0, s'))
       /\ newStateEvents s' = newStateEvents machine0
       /\ exists t, trace s' = trace machine0 ++ t
            /\ Forall (fun a => enqueuesOrNotifies a = false) t).
Proof.
  split.
  - apply (applyEvents_aborts_on_error (ops := refusingOps)
             (adapters := okAdapters) 0 machine0 1 [1] 1
             (NotifySubscribers 1 (record (AEnqueue 1) machine0)) 1 []).
    + apply (LoopHead_next (ops := refusingOps) (adapters := okAdapters)
               0 machine0 0 [0] 0 machine0 0 []);
        [constructor | reflexivity | reflexivity].
    + reflexivity.
    + by apply (ProcessEventFails (ops := refusingOps)
                  (adapters := okAdapters) _ _ _ _ ()).
  - apply (applyEvents_aborts_on_error (ops := scenario2Ops)
             (adapters := offlineAdapters) 0 machine0 0 [0] 0 machine0 0 []).
    + constructor.
    + reflexivity.
    + apply (DispatchFails (ops := scenario2Ops) (adapters := offlineAdapters)
               0 0 machine0 _
               {| NextState := 1;
                  NewEvents := Some {| InternalEvent := Some 1;
                                       ExternalEvents := Some [broadcastX] |} |}
               () {| InternalEvent := Some 1;
                     ExternalEvents := Some [broadcastX] |}
               [] broadcastX [] (withEnv () machine0)
               (executeDaemonEvent (adapters := offlineAdapters) broadcastX
                  (withEnv () machine0)).2); reflexivity.
Defined.

(** Scenario 2 with adapters that accept: broadcast, then enqueue, then
    publish. *)
Lemma applyStep_dispatches_then_enqueues_witness :
  applyStep (ops := scenario2Ops) (adapters := okAdapters) 0 [] 0 machine0
  = (None,
     ([1], 1,
      NotifySubscribers 1
        (record (AEnqueue 1)
           (executeDaemonEvent (adapters := okAdapters) broadcastX
              (withEnv () machine0)).2)))
  /\ trace (applyStep (ops := scenario2Ops) (adapters := okAdapters)
              0 [] 0 machine0).2.2
     = [ADispatch broadcastX; ABroadcastTransaction [x01] "x";
        AEnqueue 1; ANotifySubscribers 1].
Proof.
  split; [|reflexivity].
  apply (applyStep_dispatches_then_enqueues (ops := scenario2Ops)
           (adapters := okAdapters) 0 [] 0 machine0
           {| NextState := 1;
              NewEvents := Some {| InternalEvent := Some 1;
                                   ExternalEvents := Some [broadcastX] |} |}
           () {| InternalEvent := Some 1; ExternalEvents := Some [broadcastX] |}
           [broadcastX] 1
           (executeDaemonEvent (adapters := okAdapters) broadcastX
              (withEnv () machine0)).2); reflexivity.
Defined.

(** A subscriber registered before the start, reading between two events:
    the first state it got is the initial one. *)
Lemma driveMachine_initial_notification_witness :
  Forall (sawFirst 0)
    (newStateEvents
       (driveMachine (ops := chainOps) (environment := unitEnv)
          (adapters := okAdapters) 2
          [RecvEvent 0; SubscriberReads 0; RecvEvent 0]
          (RegisterStateEvents machine0)).2).
Proof.
  apply (driveMachine_initial_notification (ops := chainOps)
           (environment := unitEnv) (adapters := okAdapters) 2
           [RecvEvent 0; SubscriberReads 0; RecvEvent 0]
           (RegisterStateEvents machine0)).
  repeat constructor.
Defined.

(** Shutdown before the hand-over, a reply that never comes, and a reply
    after 999 ns. *)
Lemma CurrentState_outcomes_witness :
  CurrentState (State := nat) (Some Quit) (Some (5%Z, 7)) false
  = Some (None, Some ErrShuttingDown)
  /\ CurrentState (State := nat) (Some Fired) None false
     = Some (None, Some ErrTimeout)
  /\ CurrentState (State := nat) (Some Fired) (Some (999%Z, 7)) false
     = Some (Some 7, None).
Proof.
  split; [|split].
  - apply (CurrentState_outcomes (State := nat) (Some Quit)
             (Some (5%Z, 7)) false).
    reflexivity.
  - apply (CurrentState_outcomes (State := nat) (Some Fired) None false);
      [reflexivity | by left].
  - apply (CurrentState_outcomes (State := nat) (Some Fired)
             (Some (999%Z, 7)) false)
      with (t := 999%Z); [reflexivity | reflexivity | lia].
Defined.

(** C7, as the claim states it, fails for a query made while the driver
    does not take it (before [Start], say) and shutdown is not signalled: no
    reply arrives within a second, or ever, and [CurrentState] does not
    fail with the timeout error; it does not return. *)
Lemma CurrentState_blocks_in_hand_over :
  CurrentState (State := nat) None None false = None
  /\ CurrentState (State := nat) None None true = None.
Proof. split; reflexivity. Qed.

(** The gated send of scenario 3 against a peer that is offline: the
    predicate turns true at its third call, the send fails, and the poller
    ends with nothing started and nothing injected. *)
Lemma SendWhen_send_error_discarded_witness :
  executeDaemonEvent (adapters := offlineAdapters) (DSendMsgEvent gatedSend)
    machine0
  = (None, go (WSendWhen gatedSend)
             (record (ADispatch (DSendMsgEvent gatedSend)) machine0))
  /\ runWorker (adapters := offlineAdapters) (WSendWhen gatedSend)
       (replicate 3 Fired ++ [Fired]) machine0
     = ([], record (ASendMessages [x02] [[x10]]) (withDaemon () machine0))
  /\ spawned (runWorker (adapters := offlineAdapters) (WSendWhen gatedSend)
                (replicate 3 Fired ++ [Fired]) machine0).2 = []
  /\ trace (runWorker (adapters := offlineAdapters) (WSendWhen gatedSend)
              (replicate 3 Fired ++ [Fired]) machine0).2
     = [ASendMessages [x02] [[x10]]].
Proof.
  apply (SendWhen_send_error_discarded (adapters := offlineAdapters)
           gatedSend (fun k => bool_decide (2 <= k)) machine0 2 [Fired]
           machine0 (ErrCollaborator "peer offline") ()).
  - reflexivity.
  - intros i Hi. apply bool_decide_eq_false. lia.
  - reflexivity.
  - reflexivity.
Defined.

(** C1: the claim says that the engine run for event N+1 starts from the
    state event N resulted in, the state queries are answered with.  On the
    machine A -> B -> C the first event takes the driver to B, yet the
    [currentState] field the engine reads still holds A; the second event
    is applied to A again and ends in B, not in C, and the query after both
    events is answered with B. *)
Theorem second_event_restarts_from_initial_state :
  (driveMachine (ops := chainOps) (environment := unitEnv)
     (adapters := okAdapters) 2 [RecvEvent 0] machine0).1.2 = 1
  /\ currentState
       (driveMachine (ops := chainOps) (environment := unitEnv)
          (adapters := okAdapters) 2 [RecvEvent 0] machine0).2 = 0
  /\ notifications
       (trace (driveMachine (ops := chainOps) (environment := unitEnv)
                 (adapters := okAdapters) 2
                 [RecvEvent 0; RecvEvent 0; RecvQuery Fired] machine0).2)
     = [0; 1; 1]
  /\ replies
       (trace (driveMachine (ops := chainOps) (environment := unitEnv)
                 (adapters := okAdapters) 2
                 [RecvEvent 0; RecvEvent 0; RecvQuery Fired] machine0).2)
     = [1]
  /\ (ProcessEvent (StateOps := chainOps) 1 0 ()).1
     = inr {| NextState := 2; NewEvents := None |}.
Proof. repeat split. Qed.

(** C3: the claim says that [CleanUp] is invoked at most once in the
    lifetime of an executor.  On the machine whose every event leads to the
    terminal state, two events make the driver call [CleanUp] twice: it
    calls it after every event whose chain ends in a terminal state. *)
Theorem cleanUp_called_after_every_terminal_chain :
  trace (driveMachine (ops := sinkOps) (environment := unitEnv)
           (adapters := okAdapters) 2 [RecvEvent 0; RecvEvent 0] machine0).2
  = [ANotifySubscribers 0; ANotifySubscribers 1; ACleanUp;
     ANotifySubscribers 1; ACleanUp]
  /\ cleanUps
       (trace (driveMachine (ops := sinkOps) (environment := unitEnv)
                 (adapters := okAdapters) 2 [RecvEvent 0; RecvEvent 0]
                 machine0).2) = 2.
Proof. split; reflexivity. Qed.

(** The failing input of C2: a RegisterConf event the notifier accepts. *)
Example executeDaemonEvent_RegisterConf_accepted :
  (executeDaemonEvent (adapters := okAdapters) (DRegisterConf confEvent6)
     machine0).1 = Some ErrUnknownDaemonEvent
  /\ spawned (executeDaemonEvent (adapters := okAdapters)
                (DRegisterConf confEvent6) machine0).2
     = [WConf 7 (Some 1)].
Proof. split; reflexivity. Qed.

End OnExamples.

End ExecutorFacts.

(** * ChannelAnnouncement2: the chain hash *)

Module AnnouncementFacts.
Import lnwire.

(** ** The stream decoder *)

(** Records below the lower bound on the next type are out of the
    decoder's reach. *)
Lemma decodeStream_below (records : list RecordSpec)
    (stream : ExtraOpaqueDataT) (min : N) (acc p : Parsed) (t : N) :
  decodeStream records min stream acc = inr p ->
  (t < min)%N ->
  typeMap p !! t = typeMap acc !! t /\ values p !! t = values acc !! t.
Proof.
  revert min acc; induction stream as [|[typ val] stream IH];
    intros min acc; simpl.
  { by intros [= <-]. }
  destruct (N.ltb_spec typ min) as [|Hge]; [done|].
  intros Hdec Ht.
  assert (Hne : typ <> t) by lia.
  destruct (getRecord typ records) as [rec|].
  - destruct (recSize rec) as [n|]; [case_decide; [|done]|];
      (apply IH in Hdec; [|lia]); destruct Hdec as [-> ->]; simpl;
      by rewrite !lookup_insert_ne.
  - apply IH in Hdec; [|lia]. destruct Hdec as [-> ->]; simpl.
    by rewrite lookup_insert_ne.
Qed.

(** Every type met in the stream is entered in the type map, and no
    other. *)
Lemma decodeStream_typeMap (records : list RecordSpec)
    (stream : ExtraOpaqueDataT) (min : N) (acc p : Parsed) (t : N) :
  decodeStream records min stream acc = inr p ->
  is_Some (typeMap p !! t) <-> is_Some (typeMap acc !! t) \/ t ∈ stream.*1.
Proof.
  revert min acc; induction stream as [|[typ val] stream IH];
    intros min acc; simpl.
  { intros [= <-]. split; [by left|]. intros [H|H]; [done|].
    by apply elem_of_nil in H. }
  destruct (N.ltb_spec typ min) as [|Hge]; [done|].
  assert (Hstep : forall m : gmap N (list byte), forall x,
             is_Some (<[typ := x]> m !! t) \/ t ∈ stream.*1
             <-> is_Some (m !! t) \/ t ∈ typ :: stream.*1).
  { intros m x. rewrite elem_of_cons.
    destruct (decide (typ = t)) as [->|Hne].
    - rewrite lookup_insert_eq. split; [intros _; right; by left|].
      intros _. left. by eexists.
    - rewrite lookup_insert_ne by done. split; [tauto|].
      intros [H|[H|H]]; [tauto|congruence|tauto]. }
  intros Hdec.
  destruct (getRecord typ records) as [rec|].
  - destruct (recSize rec) as [n|]; [case_decide; [|done]|];
      apply IH in Hdec; rewrite Hdec; simpl; apply Hstep.
  - apply IH in Hdec. rewrite Hdec; simpl. apply Hstep.
Qed.

(** A record of a known type is decoded into the value handed in for that
    type. *)
Lemma decodeStream_values (records : list RecordSpec)
    (stream : ExtraOpaqueDataT) (min : N) (acc p : Parsed) (t : N)
    (v : list byte) :
  decodeStream records min stream acc = inr p ->
  (t, v) ∈ stream ->
  is_Some (getRecord t records) ->
  values p !! t = Some v.
Proof.
  revert min acc; induction stream as [|[typ val] stream IH];
    intros min acc; simpl.
  { intros _ H. by apply elem_of_nil in H. }
  destruct (N.ltb_spec typ min) as [|Hge]; [done|].
  intros Hdec Hin Hknown. apply elem_of_cons in Hin as [[= <- <-]|Hin].
  - destruct Hknown as [rec Hrec]. rewrite Hrec in Hdec.
    destruct (recSize rec) as [n|]; [case_decide; [|done]|];
      (eapply decodeStream_below in Hdec as [_ ->]; [|lia]); simpl;
      apply lookup_insert_eq.
  - destruct (getRecord typ records) as [rec|].
    + destruct (recSize rec) as [n|]; [case_decide; [|done]|];
        by eapply IH.
    + by eapply IH.
Qed.

(** A canonical stream whose known records have their sizes decodes. *)
Lemma decodeStream_succeeds (records : list RecordSpec)
    (stream : ExtraOpaqueDataT) (min : N) (acc : Parsed) :
  canonical min stream = true ->
  Forall (sizeOK records) stream ->
  exists p, decodeStream records min stream acc = inr p.
Proof.
  revert min acc; induction stream as [|[typ val] stream IH];
    intros min acc; simpl.
  { intros _ _. by eexists. }
  intros [Hlt Hcan]%andb_true_iff Hsize.
  apply negb_true_iff in Hlt. rewrite Hlt.
  inversion Hsize as [|? ? Hhead Htail]; subst.
  unfold sizeOK in Hhead; simpl in Hhead.
  destruct (getRecord typ records) as [rec|]; [|by apply IH].
  destruct (recSize rec) as [n|]; [|by apply IH].
  rewrite decide_True by done. by apply IH.
Qed.

(** ** Sorting keeps the records *)

Lemma elem_of_insertRecord (x r : TlvRecord) (l : list TlvRecord) :
  x ∈ insertRecord r l <-> x = r \/ x ∈ l.
Proof.
  induction l as [|y l IH]; simpl.
  - by rewrite list_elem_of_singleton, elem_of_nil; tauto.
  - destruct (r.1 <=? y.1)%N.
    + by rewrite elem_of_cons.
    + rewrite !elem_of_cons, IH. tauto.
Qed.

Lemma elem_of_SortRecords (x : TlvRecord) (l : list TlvRecord) :
  x ∈ SortRecords l <-> x ∈ l.
Proof.
  induction l as [|y l IH]; simpl; [done|].
  by rewrite elem_of_insertRecord, elem_of_cons, IH.
Qed.

(** ** DataToSign *)

(** The producers are collected in ascending order of type, so sorting
    leaves them as they are and the stream is canonical. *)
Lemma recordProducers_canonical (c : ChannelAnnouncement2) :
  SortRecords (recordProducers c) = recordProducers c
  /\ canonical 0%N (recordProducers c) = true.
Proof.
  destruct c as [sig chain feat scid cap n1 n2 [k1|] [k2|] [m|] extra];
    unfold recordProducers; simpl; case_bool_decide; done.
Qed.

Lemma DataToSign_stream (c : ChannelAnnouncement2) :
  exists c', DataToSign c = inr (recordProducers c, c')
             /\ ChainHash c' = ChainHash c
             /\ ExtraOpaqueData c' = recordProducers c.
Proof.
  unfold DataToSign, EncodeMessageExtraData.
  destruct (recordProducers_canonical c) as [-> ->]. by eexists.
Qed.

(** The chain-hash record is among the producers exactly when the chain
    hash is not the genesis hash, and then it holds the chain hash. *)
Lemma recordProducers_chainHash (c : ChannelAnnouncement2) :
  (0%N ∈ (recordProducers c).*1 <-> ChainHash c <> MainNetGenesisHash)
  /\ (forall v, (0%N, v) ∈ recordProducers c -> v = ChainHash c)
  /\ (ChainHash c <> MainNetGenesisHash ->
      (0%N, ChainHash c) ∈ recordProducers c).
Proof.
  assert (Hrest : forall v,
             (0%N, v) ∈ [(2%N, Features c); (4%N, ShortChannelID c);
                        (6%N, Capacity c); (8%N, NodeID1 c);
                        (10%N, NodeID2 c)]
                       ++ optionRecord 12%N (BitcoinKey1 c)
                       ++ optionRecord 14%N (BitcoinKey2 c)
                       ++ optionRecord 16%N (MerkleRootHash c) -> False).
  { intros v. rewrite !elem_of_app.
    destruct (BitcoinKey1 c), (BitcoinKey2 c), (MerkleRootHash c); simpl;
      rewrite ?elem_of_cons, ?elem_of_nil; intuition discriminate. }
  unfold recordProducers. case_bool_decide as Hg; cbn [negb app].
  - split; [|split].
    + split; [|done]. intros ([t v] & Ht & Hin)%list_elem_of_fmap.
      simpl in Ht; subst t. by apply Hrest in Hin.
    + intros v Hin. by apply Hrest in Hin.
    + done.
  - split; [|split].
    + split; [done|]. intros _. apply elem_of_cons. by left.
    + intros v [[= ->]|Hin]%elem_of_cons; [done|]. by apply Hrest in Hin.
    + intros _. apply elem_of_cons. by left.
Qed.

Lemma recordProducers_sizeOK (c : ChannelAnnouncement2) :
  wellTyped c -> Forall (sizeOK knownRecords) (recordProducers c).
Proof.
  intros (Hc & Hs & Hcap & Hn1 & Hn2 & Hk1 & Hk2 & Hm).
  unfold recordProducers.
  apply Forall_app; split.
  { case_bool_decide; simpl; [constructor|]. by repeat constructor. }
  apply Forall_cons; split; [done|].
  repeat (apply Forall_cons; split; [done|]).
  repeat (apply Forall_app; split).
  - destruct (BitcoinKey1 c) as [k|]; repeat constructor. by apply Hk1.
  - destruct (BitcoinKey2 c) as [k|]; repeat constructor. by apply Hk2.
  - destruct (MerkleRootHash c) as [h|]; repeat constructor. by apply Hm.
Qed.

(** ** DecodeTLVRecords *)

Lemma DecodeTLVRecords_chainHash (c c' : ChannelAnnouncement2)
    (tlvRecords : ExtraOpaqueDataT) :
  DecodeTLVRecords c tlvRecords = inr c' ->
  (0%N ∉ tlvRecords.*1 -> ChainHash c' = MainNetGenesisHash)
  /\ (forall v, (0%N, v) ∈ tlvRecords -> ChainHash c' = v).
Proof.
  unfold DecodeTLVRecords, ExtractRecords.
  destruct (decodeStream _ _ _ _) as [err|p] eqn:Hdec; [done|].
  intros [= <-]; simpl. split.
  - intros Habsent. rewrite bool_decide_eq_false_2; [done|].
    rewrite (decodeStream_typeMap _ _ _ _ _ _ Hdec).
    intros [H|H]; [|done]. simpl in H. rewrite lookup_empty in H.
    by destruct H.
  - intros v Hin. rewrite bool_decide_eq_true_2.
    + by rewrite (decodeStream_values _ _ _ _ _ _ _ Hdec Hin).
    + rewrite (decodeStream_typeMap _ _ _ _ _ _ Hdec). right.
      apply list_elem_of_fmap. by exists (0%N, v).
Qed.

(** C10, as the code has it: [DecodeTLVRecords] sets the chain hash to the
    mainnet genesis hash when the stream has no type-0 record and to the
    value of the type-0 record when it has one (which may itself be the
    genesis hash); the stream [DataToSign] returns has a chain-hash record
    exactly when the chain hash is not the genesis hash, and that record
    holds the chain hash; so the chain hash of a message survives [Encode]
    followed by [Decode]. *)
Theorem chain_hash_defaults_to_genesis (c c0 : ChannelAnnouncement2)
    (tlvRecords : ExtraOpaqueDataT) :
  (forall c', DecodeTLVRecords c0 tlvRecords = inr c' ->
     (0%N ∉ tlvRecords.*1 -> ChainHash c' = MainNetGenesisHash)
     /\ (forall v, (0%N, v) ∈ tlvRecords -> ChainHash c' = v))
  /\ (exists data c1,
        DataToSign c = inr (data, c1)
        /\ (0%N ∈ data.*1 <-> ChainHash c <> MainNetGenesisHash)
        /\ (forall v, (0%N, v) ∈ data -> v = ChainHash c))
  /\ (wellTyped c ->
      exists wire c',
        Encode c = inr wire
        /\ Decode c0 wire = inr c'
        /\ ChainHash c' = ChainHash c).
Proof.
  split; [|split].
  - intros c'. apply DecodeTLVRecords_chainHash.
  - destruct (DataToSign_stream c) as (c1 & Hsign & _).
    destruct (recordProducers_chainHash c) as (Hiff & Hval & _).
    by exists (recordProducers c), c1.
  - intros Hwt.
    destruct (DataToSign_stream c) as (c1 & Hsign & _ & Hextra).
    destruct (recordProducers_canonical c) as [_ Hcan].
    destruct (decodeStream_succeeds knownRecords (recordProducers c) 0%N
                {| typeMap := ∅; values := ∅ |} Hcan
                (recordProducers_sizeOK c Hwt)) as [p Hp].
    assert (Hdec : exists c',
               Decode c0 (Signature c1, recordProducers c) = inr c').
    { unfold Decode, DecodeTLVRecords, ExtractRecords; simpl. rewrite Hp.
      by eexists. }
    destruct Hdec as [c' Hdec].
    exists (Signature c1, recordProducers c), c'.
    split; [unfold Encode; by rewrite Hsign, Hextra|]. split; [done|].
    unfold Decode in Hdec; simpl in Hdec.
    destruct (DecodeTLVRecords_chainHash _ _ _ Hdec) as [Habsent Hpresent].
    destruct (recordProducers_chainHash c) as (Hiff & _ & Hin).
    destruct (decide (ChainHash c = MainNetGenesisHash)) as [Heq|Hne].
    + rewrite Heq. apply Habsent. rewrite Hiff. by intros H.
    + by apply Hpresent, Hin.
Qed.

(** The sample announcement, on another chain, through [Encode] and
    [Decode]. *)
Lemma chain_hash_defaults_to_genesis_witness :
  exists wire c',
    Encode sampleAnnouncement = inr wire
    /\ Decode emptyAnnouncement wire = inr c'
    /\ ChainHash c' = ChainHash sampleAnnouncement.
Proof.
  apply (chain_hash_defaults_to_genesis sampleAnnouncement emptyAnnouncement []).
  unfold wellTyped; simpl.
  repeat split; try reflexivity; intros k [= <-]; reflexivity.
Defined.

(** C10, as the claim states it, fails on a stream that spells the genesis
    hash out: the stream has a type-0 record, and the decoded chain hash is
    the mainnet genesis hash all the same. *)
Lemma explicit_genesis_record_decodes_to_genesis :
  ChainHash <$> (match DecodeTLVRecords emptyAnnouncement
                         [(0%N, MainNetGenesisHash)] with
                 | inr c' => Some c'
                 | inl _ => None
                 end) = Some MainNetGenesisHash
  /\ 0%N ∈ [(0%N, MainNetGenesisHash)].*1.
Proof.
  split; [vm_compute; reflexivity | by apply elem_of_cons; left].
Qed.

End AnnouncementFacts.

(** * The executor: further properties *)

Module ExecutorExtras.
Import protofsm ExecutorFacts.

Section Extras.

Context {Event State Env D : Type}.
Context {ops : StateOps (Event := Event) (State := State) (Env := Env)}
        {environment : Environment (Env := Env)}
        {adapters : DaemonAdapters (D := D)}.

Abbreviation SM := (StateMachine (Event := Event) (State := State) (Env := Env) (D := D)).
Abbreviation Act := (Action (Event := Event) (State := State)).

(** ** The dispatcher *)

(** X1: the dispatcher returns nil for exactly these events: a SendMessage
    event that has a predicate (whatever the adapter will do later) or whose
    immediate send succeeds, a BroadcastTxn event whose broadcast succeeds,
    and a RegisterSpend event whose registration succeeds; for a
    RegisterConf event and for an event of any other type it always returns
    an error. *)
Theorem executeDaemonEvent_nil_iff (event : DaemonEvent) (s : SM) :
  (executeDaemonEvent event s).1 = None <->
  match event with
  | DSendMsgEvent e =>
      IsSome (SendWhen e) = true
      \/ (SendMessages (TargetPeer e) (Msgs e) (daemon s)).1 = None
  | DBroadcastTxn e =>
      (BroadcastTransaction (Tx e) (Label e) (daemon s)).1 = None
  | DRegisterSpend e =>
      exists spendEvent,
        (RegisterSpendNtfn (OutPoint e) (SpendPkScript e) (SpendHeightHint e)
           (daemon s)).1 = inr spendEvent
  | DRegisterConf _ | DOther _ => False
  end.
Proof.
  unfold executeDaemonEvent.
  destruct event as [e|e|e|e|n]; simpl.
  - destruct (IsSome (SendWhen e)); simpl; [split; [by left | done]|].
    unfold sendAndCleanUp; simpl.
    destruct (SendMessages _ _ _) as [[err|] d]; simpl;
      (split; [intros H; try done; by right | intros [H|H]; done]).
  - by destruct (BroadcastTransaction _ _ _) as [[err|] d].
  - destruct (RegisterSpendNtfn _ _ _ _) as [[err|h] d]; simpl.
    + split; [done | by intros [h H]].
    + split; [by exists h | done].
  - by destruct (RegisterConfirmationsNtfn _ _ _ _ _) as [[err|h] d].
  - done.
Qed.

(** X2: one dispatch starts at most one goroutine, and when it returns the
    wrapped error of an adapter call it has started none: no waiter or
    injector is left behind by a send, broadcast or registration that
    failed. *)
Theorem executeDaemonEvent_no_goroutine_on_adapter_error
    (event : DaemonEvent) (s : SM) :
  (spawned (executeDaemonEvent event s).2 = spawned s
   \/ exists w, spawned (executeDaemonEvent event s).2 = spawned s ++ [w])
  /\ (forall prefix cause,
        (executeDaemonEvent event s).1 = Some (ErrWrap prefix cause) ->
        spawned (executeDaemonEvent event s).2 = spawned s).
Proof.
  unfold executeDaemonEvent.
  destruct event as [e|e|e|e|n]; simpl.
  - destruct (IsSome (SendWhen e)); simpl; [split; [right; by eexists | done]|].
    unfold sendAndCleanUp; simpl.
    destruct (SendMessages _ _ _) as [[err|] d]; simpl; [split; [by left|done]|].
    destruct (PostSendEvent e); simpl;
      (split; [first [by left | right; by eexists] | done]).
  - destruct (BroadcastTransaction _ _ _) as [[err|] d]; simpl;
      (split; [by left | done]).
  - destruct (RegisterSpendNtfn _ _ _ _) as [[err|h] d]; simpl;
      (split; [first [by left | right; by eexists] | done]).
  - destruct (RegisterConfirmationsNtfn _ _ _ _ _) as [[err|h] d]; simpl;
      (split; [first [by left | right; by eexists] | done]).
  - split; [by left | done].
Qed.

(** ** The predicate poller *)

(** X3: the poller sends at most once, and it does not send while the
    predicate answers false: it leaves the executor as it found it or as
    one [sendAndCleanUp] leaves it, and if the predicate is false at every
    call the ticks give it (shutdown or not), the executor is untouched. *)
Theorem pollSendWhen_gated (daemonEvent : SendMsgEvent) (k : nat)
    (sel : list Select) (s : SM) :
  (pollSendWhen daemonEvent k sel s = s
   \/ pollSendWhen daemonEvent k sel s = (sendAndCleanUp daemonEvent s).2)
  /\ ((forall pred i, SendWhen daemonEvent = Some pred ->
         i < length sel -> pred (k + i) = false) ->
      pollSendWhen daemonEvent k sel s = s).
Proof.
  revert k; induction sel as [|o sel IH]; intros k; simpl.
  { split; [by left | done]. }
  destruct o; [|split; [by left | done]].
  destruct (SendWhen daemonEvent) as [pred|] eqn:Hp; simpl.
  - destruct (pred k) eqn:Hk.
    + split; [right; by destruct (sendAndCleanUp daemonEvent s)|].
      intros Hfalse. specialize (Hfalse pred 0 eq_refl ltac:(lia)).
      rewrite Nat.add_0_r in Hfalse. congruence.
    + destruct (IH (S k)) as [Hone Hnone]. split; [done|].
      intros Hfalse. apply Hnone. intros pred' i Hp' Hi.
      replace (S k + i) with (k + S i) by lia. apply Hfalse; [done | lia].
  - destruct (IH (S k)) as [Hone Hnone]. split; [done|].
    intros _. apply Hnone. by intros pred' i.
Qed.

(** X4: when the predicate first answers true at its (n+1)-th call and the
    send succeeds, the poller has called [SendMessages] once and, if the
    event has a postSend event, has started the one goroutine that hands it
    to [SendEvent]; later ticks are not looked at. *)
Theorem pollSendWhen_sends_then_injects (daemonEvent : SendMsgEvent)
    (pred : SendPredicate) (n : nat) (sel : list Select) (s : SM) (d : D) :
  SendWhen daemonEvent = Some pred ->
  (forall i, i < n -> pred i = false) ->
  pred n = true ->
  SendMessages (TargetPeer daemonEvent) (Msgs daemonEvent) (daemon s)
  = (None, d) ->
  trace (pollSendWhen daemonEvent 0 (replicate (S n) Fired ++ sel) s)
  = trace s ++ [ASendMessages (TargetPeer daemonEvent) (Msgs daemonEvent)]
  /\ spawned (pollSendWhen daemonEvent 0 (replicate (S n) Fired ++ sel) s)
     = spawned s ++ match PostSendEvent daemonEvent with
                    | Some event => [WPostSend event]
                    | None => []
                    end
  /\ daemon (pollSendWhen daemonEvent 0 (replicate (S n) Fired ++ sel) s) = d.
Proof.
  intros Hp Hf Ht Hsend.
  replace (replicate (S n) Fired ++ sel)
    with (replicate n Fired ++ Fired :: sel).
  2:{ clear. induction n as [|n IH]; simpl; [done | by rewrite IH]. }
  rewrite (pollSendWhen_false_ticks daemonEvent pred n 0) by done.
  simpl. rewrite Hp; simpl. rewrite Ht.
  unfold sendAndCleanUp. rewrite Hsend.
  destruct (PostSendEvent daemonEvent); simpl; by rewrite ?app_nil_r.
Qed.

(** ** The loop over the external event set *)

(** X5: the loop over an external event set stops at the first event the
    dispatcher refuses: the events before it and the refused one have been
    dispatched, in order, and none of those after it. *)
Theorem dispatchAll_stops_at_first_error (before after : DaemonEventSet)
    (dEvent : DaemonEvent) (s s1 s2 : SM) (err : error) :
  dispatchAll before s = (None, s1) ->
  executeDaemonEvent dEvent s1 = (Some err, s2) ->
  dispatchAll (before ++ dEvent :: after) s = (Some err, s2)
  /\ exists t, trace s2 = trace s ++ t
               /\ dispatched t = before ++ [dEvent].
Proof.
  intros Hb Hd. split; [by apply dispatchAll_first_error with s1|].
  destruct (dispatchAll_in_order _ _ _ Hb) as (t1 & Ht1 & Hd1 & _).
  destruct (executeDaemonEvent_dispatched dEvent s1) as (t2 & Ht2 & Hd2 & _).
  rewrite Hd in Ht2; simpl in Ht2.
  exists (t1 ++ ADispatch dEvent :: t2). split.
  - by rewrite Ht2, Ht1, app_assoc.
  - unfold dispatched in *. rewrite omap_app, Hd1.
    change (omap dispatchOf (ADispatch dEvent :: t2))
      with (dEvent :: omap dispatchOf t2).
    by rewrite Hd2.
Qed.

(** ** The transition engine *)

Lemma applyStep_queue (event : Event) (q : Queue.t Event) (cs : State)
    (s : SM) :
  (applyStep event q cs s).2.1.1 = q
  \/ exists inEvent, (applyStep event q cs s).2.1.1 = q ++ [inEvent].
Proof.
  unfold applyStep.
  destruct (ProcessEvent cs event (env s)) as [[err|transition] e]; simpl;
    [by left|].
  destruct (NewEvents transition) as [events|]; simpl; [|by left].
  unfold processNewEvents.
  destruct (MapOptionZ _ _ _) as [[err|] s1]; simpl; [by left|].
  destruct (InternalEvent events) as [inEvent|]; simpl;
    [right; by exists inEvent | by left].
Qed.

(** X6: at every head of the loop of [applyEvents] the queue holds at most
    one event: the loop takes one event off before each step and a
    transition emits at most one internal event. *)
Theorem applyEvents_queue_at_most_one (newEvent : Event) (s0 : SM) (k : nat)
    (q : Queue.t Event) (cs : State) (s : SM) :
  LoopHead newEvent s0 k q cs s -> length q <= 1.
Proof.
  induction 1 as [|k q cs s event q1 q2 cs2 s2 _ IH Hdq Hstep]; [done|].
  destruct q as [|x q]; [done|]. injection Hdq as -> ->.
  assert (q1 = []) as -> by (destruct q1; [done | simpl in IH; lia]).
  destruct (applyStep_queue event [] cs s) as [Hq|[inEvent Hq]];
    rewrite Hstep in Hq; simpl in Hq; subst; simpl; lia.
Qed.

(** X7: when [applyEvents] returns without error, the state it returns is
    the last one it published: the run has notified the subscribers at
    least once, and of the returned state last. *)
Theorem applyEvents_returns_last_published (fuel : nat) (newEvent : Event)
    (s : SM) (st : State) (s' : SM) :
  applyEvents fuel newEvent s = Returned st None s' ->
  exists t, trace s' = trace s ++ t /\ last (notifications t) = Some st.
Proof.
  unfold applyEvents. intros Hrun.
  destruct (applyLoop_trace fuel (Queue.NewQueue [newEvent]) (currentState s) s)
    as (t & _ & Ht & Hret).
  rewrite Hrun in Ht; simpl in Ht.
  destruct (Hret st s' Hrun) as [(Hq & _)|[t0 ->]]; [done|].
  exists (t0 ++ [ANotifySubscribers st]). split; [done|].
  unfold notifications. rewrite omap_app.
  change (omap notificationOf [ANotifySubscribers st]) with [st].
  apply last_snoc.
Qed.

(** X8: a transition whose external event set holds a RegisterConf event
    cannot complete: once the events before it are dispatched, the
    dispatcher returns an error for it (the registration error, or the
    unknown-daemon-event error when the registration succeeds), and the step
    fails with the queue and the current state as they were. *)
Theorem applyStep_fails_on_RegisterConf (event : Event) (q : Queue.t Event)
    (cs : State) (s : SM) (transition : StateTransition) (e : Env)
    (events : EmittedEvent) (before after : DaemonEventSet)
    (daemonEvent : RegisterConf) (s1 : SM) :
  ProcessEvent cs event (env s) = (inr transition, e) ->
  NewEvents transition = Some events ->
  ExternalEvents events = Some (before ++ DRegisterConf daemonEvent :: after) ->
  dispatchAll before (withEnv e s) = (None, s1) ->
  exists err,
    (executeDaemonEvent (DRegisterConf daemonEvent) s1).1 = Some err
    /\ applyStep event q cs s
       = (Some err,
          (q, cs, (executeDaemonEvent (DRegisterConf daemonEvent) s1).2)).
Proof.
  intros Hp Hn Hx Hb.
  destruct (executeDaemonEvent (DRegisterConf daemonEvent) s1)
    as [[err|] s2] eqn:Hd.
  - exists err. split; [done|].
    unfold applyStep. rewrite Hp, Hn; simpl.
    unfold processNewEvents. rewrite Hx; simpl.
    by rewrite (dispatchAll_first_error _ _ _ _ _ _ _ Hb Hd).
  - exfalso. revert Hd. unfold executeDaemonEvent; simpl.
    by destruct (RegisterConfirmationsNtfn _ _ _ _ _) as [[err|h] d].
Qed.

(** ** The driver *)

(** X9: once the driver has taken the shutdown signal it does nothing
    more: whatever is sent or asked after that is not processed. *)
Theorem driveMachine_stops_at_quit (fuel : nat) (before after : list Input)
    (s : SM) :
  driveMachine fuel (before ++ RecvQuit :: after) s
  = driveMachine fuel (before ++ [RecvQuit]) s.
Proof.
  unfold driveMachine.
  generalize (currentState s) (NotifySubscribers (currentState s) s).
  induction before as [|input before IH]; intros cs s1; simpl; [done|].
  destruct input as [newEvent|reply| |i]; simpl.
  - destruct (applyEvents fuel newEvent s1) as [newState [err|] s2|s2];
      [apply IH | apply IH | done].
  - destruct (SendOrQuit reply); simpl; [apply IH | done].
  - done.
  - apply IH.
Qed.

(** X10: no error ends the driver: as long as shutdown is not signalled
    (no quit taken, no reply lost to it), the driver has not returned,
    whatever the transitions, the dispatcher and [CleanUp] have answered. *)
Theorem driveMachine_exits_only_on_quit (fuel : nat) (inputs : list Input)
    (s : SM) :
  RecvQuit ∉ inputs -> RecvQuery Quit ∉ inputs ->
  (driveMachine fuel inputs s).1.1 <> Exited.
Proof.
  unfold driveMachine.
  generalize (currentState s) (NotifySubscribers (currentState s) s).
  induction inputs as [|input inputs IH]; intros cs s1 Hq Hr; simpl; [done|].
  apply not_elem_of_cons in Hq as [Hq1 Hq2].
  apply not_elem_of_cons in Hr as [Hr1 Hr2].
  destruct input as [newEvent|reply| |i]; simpl.
  - destruct (applyEvents fuel newEvent s1) as [newState [err|] s2|s2];
      [by apply IH | by apply IH | done].
  - destruct reply; simpl; [by apply IH | done].
  - done.
  - by apply IH.
Qed.








End Extras.

(** ** On concrete machines *)

Section OnExamples.

Import Examples.

(** The gated send of scenario 3 against a peer that takes the message. *)
Lemma pollSendWhen_sends_then_injects_witness :
  trace (pollSendWhen (adapters := okAdapters) gatedSend 0
           (replicate 3 Fired ++ [Fired; Quit]) machine0)
  = [ASendMessages [x02] [[x10]]]
  /\ spawned (pollSendWhen (adapters := okAdapters) gatedSend 0
                (replicate 3 Fired ++ [Fired; Quit]) machine0)
     = [WPostSend 1]
  /\ daemon (pollSendWhen (adapters := okAdapters) gatedSend 0
               (replicate 3 Fired ++ [Fired; Quit]) machine0) = ().
Proof.
  apply (pollSendWhen_sends_then_injects (adapters := okAdapters) gatedSend
           (fun k => bool_decide (2 <= k)) 2 [Fired; Quit] machine0 ()).
  - reflexivity.
  - intros i Hi. apply bool_decide_eq_false. lia.
  - reflexivity.
  - reflexivity.
Defined.

(** A predicate that never turns true: four ticks, then shutdown. *)
Lemma pollSendWhen_gated_witness :
  pollSendWhen (adapters := okAdapters)
    {| TargetPeer := [x02]; Msgs := [[x10]];
       SendWhen := Some (fun _ => false); PostSendEvent := Some 1 |}
    0 [Fired; Fired; Fired; Fired; Quit] machine0 = machine0.
Proof.
  apply (pollSendWhen_gated (adapters := okAdapters)
           {| TargetPeer := [x02]; Msgs := [[x10]];
              SendWhen := Some (fun _ => false); PostSendEvent := Some 1 |}
           0 [Fired; Fired; Fired; Fired; Quit] machine0).
  intros pred i [= <-] _. reflexivity.
Defined.

(** A set of three events whose second is refused. *)
Lemma dispatchAll_stops_at_first_error_witness :
  dispatchAll (adapters := okAdapters)
    ([broadcastX] ++ DOther "Unheard" :: [broadcastX]) machine0
  = (Some ErrUnknownDaemonEvent,
     (executeDaemonEvent (adapters := okAdapters) (DOther "Unheard")
        (executeDaemonEvent (adapters := okAdapters) broadcastX machine0).2).2)
  /\ exists t,
       trace (executeDaemonEvent (adapters := okAdapters) (DOther "Unheard")
                (executeDaemonEvent (adapters := okAdapters) broadcastX
                   machine0).2).2
       = trace machine0 ++ t
       /\ dispatched t = [broadcastX] ++ [DOther "Unheard"].
Proof.
  apply (dispatchAll_stops_at_first_error (adapters := okAdapters)
           [broadcastX] [broadcastX] (DOther "Unheard") machine0
           (executeDaemonEvent (adapters := okAdapters) broadcastX machine0).2);
    reflexivity.
Defined.

(** The second head of the loop on the machine whose state B refuses. *)
Lemma applyEvents_queue_at_most_one_witness :
  length (Queue.Enqueue 1 (Queue.NewQueue (A := nat) [])) <= 1.
Proof.
  apply (applyEvents_queue_at_most_one (ops := refusingOps)
           (adapters := okAdapters) 0 machine0 1 [1] 1
           (NotifySubscribers 1 (record (AEnqueue 1) machine0))).
  apply (LoopHead_next (ops := refusingOps) (adapters := okAdapters)
           0 machine0 0 [0] 0 machine0 0 []);
    [constructor | reflexivity | reflexivity].
Defined.

(** Scenario 2: the chain of e0 ends in B, published last. *)
Lemma applyEvents_returns_last_published_witness :
  exists t,
    trace (machineOf (applyEvents (ops := scenario2Ops)
                        (adapters := okAdapters) 3 0 machine0))
    = trace machine0 ++ t
    /\ last (notifications t) = Some 1.
Proof.
  apply (applyEvents_returns_last_published (ops := scenario2Ops)
           (adapters := okAdapters) 3 0 machine0 1
           (machineOf (applyEvents (ops := scenario2Ops)
                         (adapters := okAdapters) 3 0 machine0))).
  reflexivity.
Defined.

(** A transition that broadcasts and then registers for six
    confirmations, with adapters that accept both. *)
Definition confirmingOps : StateOps (Event := nat) (State := nat) (Env := unit) := {|
  ProcessEvent st _ e :=
    (inr {| NextState := 1;
            NewEvents := Some {| InternalEvent := Some 1;
                                 ExternalEvents :=
                                   Some [broadcastX; DRegisterConf confEvent6] |} |},
     e);
  IsTerminal st := false |}.

Lemma applyStep_fails_on_RegisterConf_witness :
  exists err,
    (executeDaemonEvent (adapters := okAdapters) (DRegisterConf confEvent6)
       (executeDaemonEvent (adapters := okAdapters) broadcastX
          (withEnv () machine0)).2).1 = Some err
    /\ applyStep (ops := confirmingOps) (adapters := okAdapters) 0 [] 0 machine0
       = (Some err,
          ([], 0,
           (executeDaemonEvent (adapters := okAdapters)
              (DRegisterConf confEvent6)
              (executeDaemonEvent (adapters := okAdapters) broadcastX
                 (withEnv () machine0)).2).2)).
Proof.
  apply (applyStep_fails_on_RegisterConf (ops := confirmingOps)
           (adapters := okAdapters) 0 [] 0 machine0
           {| NextState := 1;
              NewEvents := Some {| InternalEvent := Some 1;
                                   ExternalEvents :=
                                     Some [broadcastX; DRegisterConf confEvent6] |} |}
           () {| InternalEvent := Some 1;
                 ExternalEvents := Some [broadcastX; DRegisterConf confEvent6] |}
           [broadcastX] [] confEvent6); reflexivity.
Defined.

(** A broadcast the daemon rejects: the error is the wrapped one and no
    goroutine was started. *)
Lemma executeDaemonEvent_no_goroutine_on_adapter_error_witness :
  spawned (executeDaemonEvent (adapters := offlineAdapters) broadcastX
             machine0).2 = [].
Proof.
  apply (executeDaemonEvent_no_goroutine_on_adapter_error
           (adapters := offlineAdapters) broadcastX machine0)
    with (prefix := "unable to broadcast txn"%string)
         (cause := ErrCollaborator "rejected").
  reflexivity.
Defined.


(** An event whose chain fails, a query and a subscriber's read: the driver
    is still waiting. *)
Lemma driveMachine_exits_only_on_quit_witness :
  (driveMachine (ops := refusingOps) (environment := unitEnv)
     (adapters := okAdapters) 3 [RecvEvent 0; RecvQuery Fired; SubscriberReads 0]
     machine0).1.1 <> Exited.
Proof.
  apply (driveMachine_exits_only_on_quit (ops := refusingOps)
           (environment := unitEnv) (adapters := okAdapters) 3
           [RecvEvent 0; RecvQuery Fired; SubscriberReads 0] machine0);
    rewrite !elem_of_cons, elem_of_nil; intuition discriminate.
Defined.

(** Two events into the machine whose every event ends in the terminal
    state. *)
Lemma cleanUp_only_after_terminal_chain_witness :
  CleanUpsJustified (ops := sinkOps)
    (trace (driveMachine (ops := sinkOps) (environment := unitEnv)
              (adapters := okAdapters) 2 [RecvEvent 0; RecvEvent 0]
              machine0).2).
Proof.
  apply (cleanUp_only_after_terminal_chain (ops := sinkOps)
           (environment := unitEnv) (adapters := okAdapters) 2
           [RecvEvent 0; RecvEvent 0] machine0).
  constructor.
Defined.

End OnExamples.

(** ** Start and Stop *)

Section Lifecycle.

Import lifecycle.

Lemma calls_guards (cs : list Call) (l : Lifecycle) :
  startOnce (calls cs l) = startOnce l || existsb isStart cs
  /\ stopOnce (calls cs l) = stopOnce l || existsb isStop cs
  /\ drivers (calls cs l)
     = drivers l + (if negb (startOnce l) && existsb isStart cs then 1 else 0)
  /\ quitCloses (calls cs l)
     = quitCloses l + (if negb (stopOnce l) && existsb isStop cs then 1 else 0).
Proof.
  revert l; induction cs as [|c cs IH]; intros l; simpl.
  { rewrite !orb_false_r, !andb_false_r. repeat split; lia. }
  destruct (IH (call l c)) as (H1 & H2 & H3 & H4).
  unfold calls in *. rewrite H1, H2, H3, H4.
  destruct c; simpl; unfold Start, Stop;
    destruct (startOnce l) eqn:Hs, (stopOnce l) eqn:Ht; simpl;
    rewrite ?Hs, ?Ht; simpl; repeat split;
    try destruct (existsb isStart cs); try destruct (existsb isStop cs);
    simpl; lia.
Qed.

(** X13: however often and in whatever order [Start] and [Stop] are called
    on a new executor, [Start] starts one driver goroutine if it is called
    at all and none otherwise, and [Stop] closes [s.quit] once if it is
    called at all: there is never a second driver and never a second
    close. *)
Theorem Start_Stop_once (cs : list Call) :
  drivers (calls cs fresh) = (if existsb isStart cs then 1 else 0)
  /\ quitCloses (calls cs fresh) = (if existsb isStop cs then 1 else 0).
Proof.
  destruct (calls_guards cs fresh) as (_ & _ & H3 & H4).
  by rewrite H3, H4.
Qed.

End Lifecycle.

End ExecutorExtras.

(** * ChannelAnnouncement2: further properties *)

Module AnnouncementExtras.
Import lnwire AnnouncementFacts.

(** ** What the decoder finds for a type *)

(** A type the stream does not hold leaves no entry. *)
Lemma decodeStream_absent (records : list RecordSpec)
    (stream : ExtraOpaqueDataT) (min : N) (acc p : Parsed) (t : N) :
  decodeStream records min stream acc = inr p ->
  t ∉ stream.*1 ->
  typeMap p !! t = typeMap acc !! t /\ values p !! t = values acc !! t.
Proof.
  revert min acc; induction stream as [|[typ val] stream IH];
    intros min acc; simpl.
  { by intros [= <-]. }
  destruct (N.ltb_spec typ min) as [|Hge]; [done|].
  intros Hdec [Hne Habsent]%not_elem_of_cons.
  destruct (getRecord typ records) as [rec|].
  - destruct (recSize rec) as [n|]; [case_decide; [|done]|];
      (apply IH in Hdec; [|done]); destruct Hdec as [-> ->]; simpl;
      by rewrite !lookup_insert_ne.
  - apply IH in Hdec; [|done]. destruct Hdec as [-> ->]; simpl.
    by rewrite lookup_insert_ne.
Qed.

Definition knownType (t : N) : Prop := is_Some (getRecord t knownRecords).

Lemma ExtractRecords_field (tlvRecords : ExtraOpaqueDataT) (p : Parsed)
    (t : N) :
  ExtractRecords tlvRecords knownRecords = inr p ->
  knownType t ->
  (t ∉ tlvRecords.*1 ->
   bool_decide (is_Some (typeMap p !! t)) = false /\ values p !! t = None)
  /\ (forall v, (t, v) ∈ tlvRecords ->
        bool_decide (is_Some (typeMap p !! t)) = true
        /\ values p !! t = Some v).
Proof.
  unfold ExtractRecords. intros Hdec Hknown. split.
  - intros Habsent.
    destruct (decodeStream_absent _ _ _ _ _ _ Hdec Habsent) as [Ht Hv].
    simpl in *. rewrite lookup_empty in Ht, Hv. split; [|done].
    apply bool_decide_eq_false_2. rewrite Ht. by intros [x Hx].
  - intros v Hin. split.
    + apply bool_decide_eq_true_2.
      rewrite (decodeStream_typeMap _ _ _ _ _ _ Hdec). right.
      apply list_elem_of_fmap. by exists (t, v).
    + by apply (decodeStream_values _ _ _ _ _ _ _ Hdec Hin).
Qed.

Lemma DecodeTLVRecords_optional (c c' : ChannelAnnouncement2)
    (tlvRecords : ExtraOpaqueDataT) :
  DecodeTLVRecords c tlvRecords = inr c' ->
  ((12%N ∉ tlvRecords.*1 -> BitcoinKey1 c' = BitcoinKey1 c)
   /\ (forall v, (12%N, v) ∈ tlvRecords -> BitcoinKey1 c' = Some v))
  /\ ((14%N ∉ tlvRecords.*1 -> BitcoinKey2 c' = BitcoinKey2 c)
      /\ (forall v, (14%N, v) ∈ tlvRecords -> BitcoinKey2 c' = Some v))
  /\ ((16%N ∉ tlvRecords.*1 -> MerkleRootHash c' = MerkleRootHash c)
      /\ (forall v, (16%N, v) ∈ tlvRecords -> MerkleRootHash c' = Some v)).
Proof.
  unfold DecodeTLVRecords.
  destruct (ExtractRecords tlvRecords knownRecords) as [err|p] eqn:Hdec;
    [done|].
  intros [= <-]; simpl.
  assert (H12 : knownType 12) by (by eexists).
  assert (H14 : knownType 14) by (by eexists).
  assert (H16 : knownType 16) by (by eexists).
  destruct (ExtractRecords_field _ _ _ Hdec H12) as [Ha12 Hp12].
  destruct (ExtractRecords_field _ _ _ Hdec H14) as [Ha14 Hp14].
  destruct (ExtractRecords_field _ _ _ Hdec H16) as [Ha16 Hp16].
  repeat split.
  - intros H. by destruct (Ha12 H) as [-> _].
  - intros v H. by destruct (Hp12 v H) as [-> ->].
  - intros H. by destruct (Ha14 H) as [-> _].
  - intros v H. by destruct (Hp14 v H) as [-> ->].
  - intros H. by destruct (Ha16 H) as [-> _].
  - intros v H. by destruct (Hp16 v H) as [-> ->].
Qed.

(** X14: [DecodeTLVRecords] sets each of the bitcoin keys and the merkle
    root hash to the value of its record (types 12, 14, 16) when the stream
    holds one, and leaves the field as the receiver had it when the stream
    holds none: decoding into a message that already has such a field does
    not clear it. *)
Theorem DecodeTLVRecords_optional_fields (c c' : ChannelAnnouncement2)
    (tlvRecords : ExtraOpaqueDataT) :
  DecodeTLVRecords c tlvRecords = inr c' ->
  ((12%N ∉ tlvRecords.*1 -> BitcoinKey1 c' = BitcoinKey1 c)
   /\ (forall v, (12%N, v) ∈ tlvRecords -> BitcoinKey1 c' = Some v))
  /\ ((14%N ∉ tlvRecords.*1 -> BitcoinKey2 c' = BitcoinKey2 c)
      /\ (forall v, (14%N, v) ∈ tlvRecords -> BitcoinKey2 c' = Some v))
  /\ ((16%N ∉ tlvRecords.*1 -> MerkleRootHash c' = MerkleRootHash c)
      /\ (forall v, (16%N, v) ∈ tlvRecords -> MerkleRootHash c' = Some v)).
Proof. apply DecodeTLVRecords_optional. Qed.

(** ** DataToSign *)

Lemma recordProducers_known (c : ChannelAnnouncement2) :
  Forall (fun r => knownType r.1) (recordProducers c)
  /\ 5 <= length (recordProducers c) <= 9.
Proof.
  destruct c as [sig chain feat scid cap n1 n2 [k1|] [k2|] [m|] extra];
    unfold recordProducers; simpl; case_bool_decide; simpl;
    (split; [repeat constructor; by eexists | lia]).
Qed.

(** X15: [DataToSign] does not fail: the records it collects are in
    strictly ascending order of type already, all of the nine types the
    message knows, between five and nine of them; the stream it returns is
    what it leaves in [ExtraOpaqueData], whatever that field held before,
    and nothing else of the message changes. *)
Theorem DataToSign_never_fails (c : ChannelAnnouncement2) :
  exists data c1,
    DataToSign c = inr (data, c1)
    /\ data = recordProducers c
    /\ canonical 0%N data = true
    /\ Forall (fun r => knownType r.1) data
    /\ 5 <= length data <= 9
    /\ ExtraOpaqueData c1 = data
    /\ (Signature c1, ChainHash c1, Features c1, ShortChannelID c1,
        Capacity c1, NodeID1 c1, NodeID2 c1, BitcoinKey1 c1, BitcoinKey2 c1,
        MerkleRootHash c1)
       = (Signature c, ChainHash c, Features c, ShortChannelID c, Capacity c,
          NodeID1 c, NodeID2 c, BitcoinKey1 c, BitcoinKey2 c,
          MerkleRootHash c).
Proof.
  unfold DataToSign, EncodeMessageExtraData.
  destruct (recordProducers_canonical c) as [Hsort Hcan].
  destruct (recordProducers_known c) as [Hknown Hlen].
  rewrite Hsort, Hcan. by eexists _, _.
Qed.

(** ** The round trip *)

Lemma recordProducers_fields (c : ChannelAnnouncement2) :
  (2%N, Features c) ∈ recordProducers c
  /\ (4%N, ShortChannelID c) ∈ recordProducers c
  /\ (6%N, Capacity c) ∈ recordProducers c
  /\ (8%N, NodeID1 c) ∈ recordProducers c
  /\ (10%N, NodeID2 c) ∈ recordProducers c
  /\ match BitcoinKey1 c with
     | Some k => (12%N, k) ∈ recordProducers c
     | None => 12%N ∉ (recordProducers c).*1
     end
  /\ match BitcoinKey2 c with
     | Some k => (14%N, k) ∈ recordProducers c
     | None => 14%N ∉ (recordProducers c).*1
     end
  /\ match MerkleRootHash c with
     | Some h => (16%N, h) ∈ recordProducers c
     | None => 16%N ∉ (recordProducers c).*1
     end.
Proof.
  assert (Hnone : forall t, (10 < t)%N ->
            t ∉ ((if negb (bool_decide (ChainHash c = MainNetGenesisHash))
                  then [(0%N, ChainHash c)] else [])
                 ++ [(2%N, Features c); (4%N, ShortChannelID c);
                     (6%N, Capacity c); (8%N, NodeID1 c);
                     (10%N, NodeID2 c)]).*1).
  { intros t Ht. rewrite fmap_app, not_elem_of_app. split.
    - destruct (bool_decide _); simpl;
        rewrite ?elem_of_cons, elem_of_nil; lia.
    - simpl. rewrite !elem_of_cons, elem_of_nil. lia. }
  assert (Hopt : forall t t' o, t <> t' -> t ∉ (optionRecord t' o).*1).
  { intros t t' [v|] Hne; simpl; [|apply not_elem_of_nil].
    rewrite elem_of_cons, elem_of_nil. tauto. }
  unfold recordProducers.
  repeat split;
    try (apply elem_of_app; right; apply elem_of_app; left;
         rewrite !elem_of_cons; tauto).
  - destruct (BitcoinKey1 c) as [k|].
    + rewrite !elem_of_app. right; right; left.
      by apply list_elem_of_singleton.
    + rewrite app_assoc, fmap_app, not_elem_of_app. split; [by apply Hnone|].
      rewrite !fmap_app, !not_elem_of_app.
      repeat split; [apply not_elem_of_nil | by apply Hopt..].
  - destruct (BitcoinKey2 c) as [k|].
    + rewrite !elem_of_app. right; right; right; left.
      by apply list_elem_of_singleton.
    + rewrite app_assoc, fmap_app, not_elem_of_app. split; [by apply Hnone|].
      rewrite !fmap_app, !not_elem_of_app.
      repeat split; [by apply Hopt | apply not_elem_of_nil | by apply Hopt].
  - destruct (MerkleRootHash c) as [h|].
    + rewrite !elem_of_app. right; right; right; right.
      by apply list_elem_of_singleton.
    + rewrite app_assoc, fmap_app, not_elem_of_app. split; [by apply Hnone|].
      rewrite !fmap_app, !not_elem_of_app.
      repeat split; [by apply Hopt.. | apply not_elem_of_nil].
Qed.

(** What [DecodeTLVRecords] makes of the stream [DataToSign] gives. *)
Lemma DecodeTLVRecords_recordProducers (c c0 : ChannelAnnouncement2) :
  wellTyped c ->
  BitcoinKey1 c0 = None -> BitcoinKey2 c0 = None -> MerkleRootHash c0 = None ->
  DecodeTLVRecords c0 (recordProducers c)
  = inr {| Signature := Signature c0; ChainHash := ChainHash c;
           Features := Features c; ShortChannelID := ShortChannelID c;
           Capacity := Capacity c; NodeID1 := NodeID1 c;
           NodeID2 := NodeID2 c; BitcoinKey1 := BitcoinKey1 c;
           BitcoinKey2 := BitcoinKey2 c;
           MerkleRootHash := MerkleRootHash c;
           ExtraOpaqueData := recordProducers c |}.
Proof.
  intros Hwt Hk1 Hk2 Hm.
  destruct (recordProducers_canonical c) as [_ Hcan].
  destruct (decodeStream_succeeds knownRecords (recordProducers c) 0%N
              {| typeMap := ∅; values := ∅ |} Hcan
              (recordProducers_sizeOK c Hwt)) as [p Hp].
  change (decodeStream knownRecords 0%N (recordProducers c)
            {| typeMap := ∅; values := ∅ |})
    with (ExtractRecords (recordProducers c) knownRecords) in Hp.
  destruct (recordProducers_fields c)
    as (H2 & H4 & H6 & H8 & H10 & H12 & H14 & H16).
  destruct (recordProducers_chainHash c) as (Hiff & _ & Hin0).
  assert (Hfield : forall t, knownType t ->
            (t ∉ (recordProducers c).*1 ->
             bool_decide (is_Some (typeMap p !! t)) = false
             /\ values p !! t = None)
            /\ (forall v, (t, v) ∈ recordProducers c ->
                  bool_decide (is_Some (typeMap p !! t)) = true
                  /\ values p !! t = Some v)).
  { intros t Ht. by apply ExtractRecords_field. }
  assert (Hlen : length (recordProducers c) <> 0).
  { destruct (recordProducers_known c) as [_ Hl]. lia. }
  assert (E0 : (if bool_decide (is_Some (typeMap p !! 0%N))
                then default (zeroBytes 32) (values p !! 0%N)
                else MainNetGenesisHash) = ChainHash c).
  { destruct (Hfield 0%N ltac:(by eexists)) as [A0 P0].
    destruct (decide (ChainHash c = MainNetGenesisHash)) as [Heq|Hne].
    - destruct A0 as [-> _]; [rewrite Hiff; by intros H|done].
    - by destruct (P0 _ (Hin0 Hne)) as [-> ->]. }
  assert (E12 : (if bool_decide (is_Some (typeMap p !! 12%N))
                 then Some (default (zeroBytes 33) (values p !! 12%N))
                 else BitcoinKey1 c0) = BitcoinKey1 c).
  { destruct (Hfield 12%N ltac:(by eexists)) as [A P].
    destruct (BitcoinKey1 c) as [k|].
    - by destruct (P _ H12) as [-> ->].
    - by destruct (A H12) as [-> _]. }
  assert (E14 : (if bool_decide (is_Some (typeMap p !! 14%N))
                 then Some (default (zeroBytes 33) (values p !! 14%N))
                 else BitcoinKey2 c0) = BitcoinKey2 c).
  { destruct (Hfield 14%N ltac:(by eexists)) as [A P].
    destruct (BitcoinKey2 c) as [k|].
    - by destruct (P _ H14) as [-> ->].
    - by destruct (A H14) as [-> _]. }
  assert (E16 : (if bool_decide (is_Some (typeMap p !! 16%N))
                 then Some (default (zeroBytes 32) (values p !! 16%N))
                 else MerkleRootHash c0) = MerkleRootHash c).
  { destruct (Hfield 16%N ltac:(by eexists)) as [A P].
    destruct (MerkleRootHash c) as [h|].
    - by destruct (P _ H16) as [-> ->].
    - by destruct (A H16) as [-> _]. }
  destruct (Hfield 2%N ltac:(by eexists)) as [_ F2].
  destruct (Hfield 4%N ltac:(by eexists)) as [_ F4].
  destruct (Hfield 6%N ltac:(by eexists)) as [_ F6].
  destruct (Hfield 8%N ltac:(by eexists)) as [_ F8].
  destruct (Hfield 10%N ltac:(by eexists)) as [_ F10].
  destruct (F2 _ H2) as [_ E2]. destruct (F4 _ H4) as [_ E4].
  destruct (F6 _ H6) as [_ E6]. destruct (F8 _ H8) as [_ E8].
  destruct (F10 _ H10) as [_ E10].
  unfold DecodeTLVRecords. rewrite Hp. cbv zeta.
  f_equal. f_equal;
    first [ exact E0 | exact E12 | exact E14 | exact E16
          | by rewrite E2 | by rewrite E4 | by rewrite E6 | by rewrite E8
          | by rewrite E10 | by case_decide ].
Qed.

(** X16: a message whose fields have the sizes of their Go types, encoded
    and decoded into a message without optional fields, comes back whole:
    the decoded message has the signature and every field of the encoded
    one, and holds the stream in [ExtraOpaqueData]. *)
Theorem Decode_Encode_round_trip (c c0 : ChannelAnnouncement2) :
  wellTyped c ->
  BitcoinKey1 c0 = None -> BitcoinKey2 c0 = None -> MerkleRootHash c0 = None ->
  exists wire,
    Encode c = inr wire
    /\ Decode c0 wire
       = inr {| Signature := Signature c; ChainHash := ChainHash c;
                Features := Features c; ShortChannelID := ShortChannelID c;
                Capacity := Capacity c; NodeID1 := NodeID1 c;
                NodeID2 := NodeID2 c; BitcoinKey1 := BitcoinKey1 c;
                BitcoinKey2 := BitcoinKey2 c;
                MerkleRootHash := MerkleRootHash c;
                ExtraOpaqueData := wire.2 |}.
Proof.
  intros Hwt Hk1 Hk2 Hm.
  destruct (DataToSign_stream c) as (c1 & Hsign & _ & Hextra).
  assert (Hsig : Signature c1 = Signature c).
  { revert Hsign. unfold DataToSign.
    destruct (EncodeMessageExtraData _); [done|]. by intros [= _ <-]. }
  exists (Signature c, recordProducers c). split.
  { unfold Encode. by rewrite Hsign, Hextra, Hsig. }
  unfold Decode. cbv zeta. cbn [fst snd].
  by rewrite (DecodeTLVRecords_recordProducers c) by (simpl; assumption).
Qed.

(** The sample announcement into a fresh message. *)
Lemma Decode_Encode_round_trip_witness :
  exists wire,
    Encode sampleAnnouncement = inr wire
    /\ Decode emptyAnnouncement wire
       = inr {| Signature := Signature sampleAnnouncement;
                ChainHash := ChainHash sampleAnnouncement;
                Features := Features sampleAnnouncement;
                ShortChannelID := ShortChannelID sampleAnnouncement;
                Capacity := Capacity sampleAnnouncement;
                NodeID1 := NodeID1 sampleAnnouncement;
                NodeID2 := NodeID2 sampleAnnouncement;
                BitcoinKey1 := BitcoinKey1 sampleAnnouncement;
                BitcoinKey2 := BitcoinKey2 sampleAnnouncement;
                MerkleRootHash := MerkleRootHash sampleAnnouncement;
                ExtraOpaqueData := wire.2 |}.
Proof.
  apply (Decode_Encode_round_trip sampleAnnouncement emptyAnnouncement);
    try reflexivity.
  unfold wellTyped; simpl.
  repeat split; try reflexivity; intros k [= <-]; reflexivity.
Defined.

(** A stream with the two bitcoin keys decoded into a message that has a
    merkle root hash: the keys are set, the hash stays. *)
Lemma DecodeTLVRecords_optional_fields_witness :
  match DecodeTLVRecords
          {| Signature := []; ChainHash := zeroBytes 32; Features := [];
             ShortChannelID := zeroBytes 8; Capacity := zeroBytes 8;
             NodeID1 := zeroBytes 33; NodeID2 := zeroBytes 33;
             BitcoinKey1 := None; BitcoinKey2 := None;
             MerkleRootHash := Some (replicate 32 x09);
             ExtraOpaqueData := [] |}
          [(12%N, replicate 33 x33); (14%N, replicate 33 x44)] with
  | inr c' =>
      MerkleRootHash c' = Some (replicate 32 x09)
      /\ BitcoinKey1 c' = Some (replicate 33 x33)
  | inl _ => False
  end.
Proof.
  destruct (DecodeTLVRecords _ _) as [err|c'] eqn:Hdec.
  - vm_compute in Hdec. discriminate.
  - destruct (DecodeTLVRecords_optional_fields _ _ _ Hdec)
      as ((_ & H12) & _ & (H16 & _)).
    split.
    + apply H16. simpl. rewrite !elem_of_cons, elem_of_nil.
      intuition discriminate.
    + apply H12. apply elem_of_cons. by left.
Defined.

(** ** Validate *)

Section ValidateFacts.

Import validate.

Context {Key Signature_ : Type}.
Context (ToSignature : list byte -> string + Signature_)
        (ParsePubKey : list byte -> string + Key)
        (schnorrParsePubKey : list byte -> string + Key)
        (AggregateKeys : list Key -> string + Key)
        (Verify : Signature_ -> list byte -> Key -> bool)
        (MsgHash : string -> string -> ExtraOpaqueDataT -> list byte).

Abbreviation validate_ :=
  (Validate ToSignature ParsePubKey schnorrParsePubKey AggregateKeys Verify
     MsgHash).

(** X17: when the announcement carries both bitcoin keys, [Validate] does
    not call [fetchPkScript]: its result is the same whatever that function
    would answer, and the chain need not be looked at. *)
Theorem Validate_both_keys_never_fetches (c : ChannelAnnouncement2)
    (k1 k2 : list byte)
    (fetchA fetchB : list byte -> string + list byte) :
  BitcoinKey1 c = Some k1 -> BitcoinKey2 c = Some k2 ->
  validate_ c fetchA = validate_ c fetchB.
Proof. intros H1 H2. unfold Validate. by rewrite H1, H2. Qed.


End ValidateFacts.

(** The sample announcement has both keys: a chain that cannot be read and
    one that answers with an empty script give the same verdict. *)
Lemma Validate_both_keys_never_fetches_witness :
  validate.toyValidate sampleAnnouncement (fun _ => inl "no chain"%string)
  = validate.toyValidate sampleAnnouncement (fun _ => inr []).
Proof.
  apply (Validate_both_keys_never_fetches (fun sig => inr sig)
           (validate.toyParse 33) (validate.toyParse 32)
           (fun keys => inr (concat keys)) validate.toyVerify
           validate.toyHash sampleAnnouncement
           (x02 :: replicate 32 x33) (x03 :: replicate 32 x44));
    reflexivity.
Defined.

End AnnouncementExtras.
